(** * Watchify streaming server: session cache and range streaming

    A shallow embedding of [watchify_server.mjs]: the [/stream] request
    handler, [keepTorrentAlive], the eviction timers and the torrent error
    listener, run by a single-threaded event loop.

    - JavaScript strings are [string] (header values reach the handler decoded
      as latin-1, one character per byte).
    - JavaScript numbers are [Num]: [NaN] or an integer.  Every number the
      handler computes is an integer or [NaN]; a JavaScript number is a
      double, so the embedding agrees with the code on the safe integers,
      those of magnitude below 2^53 ([safe]).  From 2^53 on the code rounds
      what it parses and computes, and from 10^21 on it prints in exponent
      form, which [Num] does not follow: a statement about numbers read from
      a request carries the bound.
    - The [Map] [activeTorrents] is a [gmap]; torrent objects live in a heap
      and are referred to by address, because closures, cache entries and
      timers share them.
    - Each handler runs to completion between two [await]s, so an event of
      the loop is one total function on the server state. *)

From Stdlib Require Import ZArith Ascii String Decimal DecimalPos DecimalZ.
From stdpp Require Import gmap strings list fin_maps.

Local Open Scope string_scope.
Local Open Scope Z_scope.

(** ** JavaScript values used by the handler *)

Module Js.

(** A JavaScript number that is an integer, or [NaN]. *)
Inductive Num : Type :=
| NaN
| Int (z : Z).

(** [Number.isSafeInteger(n)], or [n] is [NaN]: the numbers on which the
    operations below are those of the code. *)
Definition safe (n : Num) : Prop :=
  match n with
  | NaN => True
  | Int z => Z.abs z < 2 ^ 53
  end.

(** [a - b], exact while the operands and the result are safe. *)
Definition sub (a b : Num) : Num :=
  match a, b with
  | Int x, Int y => Int (x - y)
  | _, _ => NaN
  end.

(** [a + b], exact while the operands and the result are safe (and for a
    safe operand plus one). *)
Definition add (a b : Num) : Num :=
  match a, b with
  | Int x, Int y => Int (x + y)
  | _, _ => NaN
  end.


(** Decimal digits, most significant first. *)
Fixpoint showUint (d : uint) : string :=
  match d with
  | Nil => ""
  | D0 d' => String "0" (showUint d')
  | D1 d' => String "1" (showUint d')
  | D2 d' => String "2" (showUint d')
  | D3 d' => String "3" (showUint d')
  | D4 d' => String "4" (showUint d')
  | D5 d' => String "5" (showUint d')
  | D6 d' => String "6" (showUint d')
  | D7 d' => String "7" (showUint d')
  | D8 d' => String "8" (showUint d')
  | D9 d' => String "9" (showUint d')
  end.

(** [`${n}`] for a number: decimal digits, a leading minus sign, or "NaN".
    This is what the code prints for a safe integer; the code prints a
    number from 10^21 on in exponent form. *)
Definition toString (n : Num) : string :=
  match n with
  | NaN => "NaN"
  | Int z =>
      match Z.to_int z with
      | Pos d => showUint d
      | Neg d => String "-" (showUint d)
      end
  end.

Definition digitOf (c : ascii) : option (uint -> uint) :=
  match c with
  | "0"%char => Some D0
  | "1"%char => Some D1
  | "2"%char => Some D2
  | "3"%char => Some D3
  | "4"%char => Some D4
  | "5"%char => Some D5
  | "6"%char => Some D6
  | "7"%char => Some D7
  | "8"%char => Some D8
  | "9"%char => Some D9
  | _ => None
  end.

(** The longest prefix of decimal digits of [s]; [Nil] when [s] does not
    start with a digit. *)
Fixpoint scanDigits (s : string) : uint :=
  match s with
  | EmptyString => Nil
  | String c s' =>
      match digitOf c with
      | Some d => d (scanDigits s')
      | None => Nil
      end
  end.

(** White space that [parseInt] skips, among the characters a latin-1
    string can hold: TAB, LF, VT, FF, CR, space and no-break space. *)
Definition isWhiteSpace (c : ascii) : bool :=
  let n := nat_of_ascii c in
  ((9 <=? n)%nat && (n <=? 13)%nat) || (n =? 32)%nat || (n =? 160)%nat.

Fixpoint trimStart (s : string) : string :=
  match s with
  | String c s' => if isWhiteSpace c then trimStart s' else s
  | EmptyString => EmptyString
  end.

(** [parseInt(s, 10)]: skip white space, read a sign, read the longest run
    of digits; [NaN] when there is no digit.  The result is the integer the
    digits denote: the code's result too when that integer is safe, while
    from 2^53 on the code returns the nearest double. *)
Definition parseInt (s : string) : Num :=
  let t := trimStart s in
  let '(neg, body) :=
    match t with
    | String "-"%char r => (true, r)
    | String "+"%char r => (false, r)
    | _ => (false, t)
    end in
  match scanDigits body with
  | Nil => NaN
  | d => Int (if neg then - Z.of_uint d else Z.of_uint d)
  end.

(** [s.startsWith(p)], returning what follows [p]. *)
Fixpoint stripPrefix (p s : string) : option string :=
  match p, s with
  | EmptyString, _ => Some s
  | String a p', String b s' =>
      if Ascii.eqb a b then stripPrefix p' s' else None
  | String _ _, EmptyString => None
  end.

(** [s.replace(/pat/, "")] for a pattern without metacharacters: the first
    occurrence of [pat] is removed. *)
Fixpoint removeFirst (pat s : string) : string :=
  match stripPrefix pat s with
  | Some rest => rest
  | None =>
      match s with
      | EmptyString => EmptyString
      | String c s' => String c (removeFirst pat s')
      end
  end.

(** [s.split(sep)] for a one-character separator. *)
Fixpoint split (sep : ascii) (s : string) : list string :=
  match s with
  | EmptyString => [EmptyString]
  | String c s' =>
      if Ascii.eqb c sep then EmptyString :: split sep s'
      else
        match split sep s' with
        | p :: ps => String c p :: ps
        | [] => [String c EmptyString]
        end
  end.

(** [s.endsWith(suf)] *)
Definition endsWith (s suf : string) : bool :=
  (String.length suf <=? String.length s)%nat
  && String.eqb
       (substring (String.length s - String.length suf) (String.length suf) s)
       suf.

(** [s.includes(c)] for a character [c]. *)
Fixpoint includes (c : ascii) (s : string) : bool :=
  match s with
  | EmptyString => false
  | String c' s' => Ascii.eqb c' c || includes c s'
  end.

(** Truthiness of a possibly [undefined] string: defined and not empty. *)
Definition truthy (o : option string) : bool :=
  match o with
  | Some (String _ _) => true
  | _ => false
  end.

End Js.

Import Js.

(** ** Data model *)

(** [const TORRENT_TTL = 10 * 60 * 1000;] *)
Definition TORRENT_TTL : Z := 10 * 60 * 1000.

(** A file of a torrent: [file.name] and [file.length]. *)
Record File : Type := mkFile {
  fileName : string;
  fileLength : Z
}.

(** A torrent object of the engine, with the fields the server reads. *)
Record Torrent : Type := mkTorrent {
  infoHash : string;
  ready : bool;
  destroyed : bool;
  files : list File
}.

(** A value of [activeTorrents]: [{ torrent, timeout }], the torrent by
    address and the timeout by handle. *)
Record Entry : Type := mkEntry {
  torrent : nat;
  timeout : nat
}.

(** A pending [setTimeout]: when it is due and the torrent its callback
    captured. *)
Record Timer : Type := mkTimer {
  deadline : Z;
  target : nat
}.

Inductive HeaderVal : Type :=
| HStr (s : string)
| HNum (n : Num).

(** What the handler wrote to [res]: [res.status(c).json({ error })] or
    [res.writeHead(c, headers)], the headers in source order. *)
Inductive Reply : Type :=
| Json (status : Z) (error : string)
| Head (status : Z) (headers : list (string * HeaderVal)).

Definition statusOf (r : Reply) : Z :=
  match r with
  | Json c _ => c
  | Head c _ => c
  end.

Fixpoint assoc (k : string) (l : list (string * HeaderVal)) : option HeaderVal :=
  match l with
  | [] => None
  | (k', v) :: l' => if String.eqb k k' then Some v else assoc k l'
  end.

Definition header (k : string) (r : Reply) : option HeaderVal :=
  match r with
  | Json _ _ => None
  | Head _ hs => assoc k hs
  end.

(** The stream of [file.createReadStream(opts)]: [opts] is [{ start, end }]
    or absent. *)
Record ReadStream : Type := mkStream {
  opts : option (Num * Num);
  streamDestroyed : bool
}.

(** Where a request's handler stands. *)
Inductive Phase : Type :=
| AwaitAdd (t : nat)
| AwaitReady (t : nat)
| Replied (r : Reply)
| Piping (t : nat) (r : Reply) (st : ReadStream).

(** What the handler reads of [req]: [req.query.magnet] and
    [req.headers.range], each possibly [undefined]. *)
Record Req : Type := mkReq {
  magnet : option string;
  range : option string
}.

(** The process state.  [heap] holds every torrent object ever created,
    [client] is the engine's index of its live torrents, [timers] the
    pending timeouts in the order they were armed, [waiting] the requests
    suspended on a torrent's readiness in the order they subscribed, and
    [errorListeners] one torrent address per [torrent.on('error', ...)]. *)
Record Server : Type := mkServer {
  heap : gmap nat Torrent;
  nextTorrent : nat;
  client : gmap string nat;
  activeTorrents : gmap string Entry;
  timers : list (nat * Timer);
  nextTimer : nat;
  now : Z;
  requests : gmap nat (Req * Phase);
  waiting : list nat;
  errorListeners : list nat
}.

Definition init : Server :=
  mkServer ∅ 0 ∅ ∅ [] 0 0 ∅ [] [].

Definition setHeap (h : gmap nat Torrent) (s : Server) : Server :=
  mkServer h (nextTorrent s) (client s) (activeTorrents s) (timers s)
    (nextTimer s) (now s) (requests s) (waiting s) (errorListeners s).

Definition setClient (c : gmap string nat) (s : Server) : Server :=
  mkServer (heap s) (nextTorrent s) c (activeTorrents s) (timers s)
    (nextTimer s) (now s) (requests s) (waiting s) (errorListeners s).

Definition setActive (a : gmap string Entry) (s : Server) : Server :=
  mkServer (heap s) (nextTorrent s) (client s) a (timers s)
    (nextTimer s) (now s) (requests s) (waiting s) (errorListeners s).

Definition setTimers (l : list (nat * Timer)) (s : Server) : Server :=
  mkServer (heap s) (nextTorrent s) (client s) (activeTorrents s) l
    (nextTimer s) (now s) (requests s) (waiting s) (errorListeners s).

Definition setRequests (r : gmap nat (Req * Phase)) (s : Server) : Server :=
  mkServer (heap s) (nextTorrent s) (client s) (activeTorrents s) (timers s)
    (nextTimer s) (now s) r (waiting s) (errorListeners s).

Definition setWaiting (w : list nat) (s : Server) : Server :=
  mkServer (heap s) (nextTorrent s) (client s) (activeTorrents s) (timers s)
    (nextTimer s) (now s) (requests s) w (errorListeners s).

Definition setListeners (l : list nat) (s : Server) : Server :=
  mkServer (heap s) (nextTorrent s) (client s) (activeTorrents s) (timers s)
    (nextTimer s) (now s) (requests s) (waiting s) l.

Definition setNow (t : Z) (s : Server) : Server :=
  mkServer (heap s) (nextTorrent s) (client s) (activeTorrents s) (timers s)
    (nextTimer s) t (requests s) (waiting s) (errorListeners s).

(** ** Timers *)

(** [clearTimeout(h)] *)
Definition clearTimeout (h : nat) (s : Server) : Server :=
  setTimers (filter (λ p, p.1 ≠ h) (timers s)) s.

(** [setTimeout(callback, TORRENT_TTL)] with a callback that captured the
    torrent [t]; returns the new handle. *)
Definition setTimeout (t : nat) (s : Server) : nat * Server :=
  let h := nextTimer s in
  (h, mkServer (heap s) (nextTorrent s) (client s) (activeTorrents s)
        (timers s ++ [(h, mkTimer (now s + TORRENT_TTL) t)])
        (S h) (now s) (requests s) (waiting s) (errorListeners s)).

(** ** The swarm engine *)

(** Modelled from the spec: [torrent.destroy()] belongs to the swarm engine
    (the webtorrent client), which is not part of the source.  It terminates
    the session: the torrent is marked destroyed and leaves the engine's
    index of live torrents. *)
Definition torrentDestroy (t : nat) (s : Server) : Server :=
  match heap s !! t with
  | None => s
  | Some tor =>
      let tor' := mkTorrent (infoHash tor) (ready tor) true (files tor) in
      let c := if decide (client s !! infoHash tor = Some t)
               then delete (infoHash tor) (client s) else client s in
      setClient c (setHeap (<[t := tor']> (heap s)) s)
  end.

(** The body shared by the callbacks below:
    [if (!torrent.destroyed) torrent.destroy();
     activeTorrents.delete(torrent.infoHash);] *)
Definition destroyAndForget (t : nat) (s : Server) : Server :=
  match heap s !! t with
  | None => s
  | Some tor =>
      let s1 := if destroyed tor then s else torrentDestroy t s in
      setActive (delete (infoHash tor) (activeTorrents s1)) s1
  end.

(** The callback armed by [keepTorrentAlive]. *)
Definition onTimeout (t : nat) (s : Server) : Server :=
  destroyAndForget t s.

(** The listener of [torrent.on('error', ...)]. *)
Definition onTorrentError (t : nat) (s : Server) : Server :=
  destroyAndForget t s.

(** [keepTorrentAlive(torrent)] *)
Definition keepTorrentAlive (t : nat) (s : Server) : Server :=
  match heap s !! t with
  | None => s
  | Some tor =>
      let s1 :=
        match activeTorrents s !! infoHash tor with
        | Some existing => clearTimeout (timeout existing) s
        | None => s
        end in
      let '(h, s2) := setTimeout t s1 in
      setActive (<[infoHash tor := mkEntry t h]> (activeTorrents s2)) s2
  end.

(** ** The [/stream] handler *)

(** The predicate of [torrent.files.find(...)]. *)
Definition playable (f : File) : bool :=
  endsWith (fileName f) ".mp4"
  || endsWith (fileName f) ".mkv"
  || endsWith (fileName f) ".avi".

(** Lines 95-151: the head written for [file] and the read stream opened,
    from the request's [Range] header. *)
Definition respond (file : File) (range : option string) : Reply * ReadStream :=
  let fileSize := fileLength file in
  if truthy range then
    let parts := split "-" (removeFirst "bytes=" (default "" range)) in
    let start := parseInt (nth 0 parts "") in
    let end_ :=
      if truthy (parts !! 1%nat) then parseInt (nth 1 parts "")
      else Int (fileSize - 1) in
    let chunkSize := add (sub end_ start) (Int 1) in
    (Head 206
       [("Content-Range",
          HStr ("bytes " ++ toString start ++ "-" ++ toString end_
                ++ "/" ++ toString (Int fileSize)));
        ("Accept-Ranges", HStr "bytes");
        ("Content-Length", HNum chunkSize);
        ("Content-Type", HStr "video/mp4")],
     mkStream (Some (start, end_)) false)
  else
    (Head 200
       [("Content-Length", HNum (Int fileSize));
        ("Content-Type", HStr "video/mp4");
        ("Accept-Ranges", HStr "bytes")],
     mkStream None false).

Definition setPhase (rid : nat) (req : Req) (p : Phase) (s : Server) : Server :=
  setRequests (<[rid := (req, p)]> (requests s)) s.

(** Lines 82-157: what the handler does once it holds a ready torrent. *)
Definition serve (rid : nat) (req : Req) (t : nat) (s : Server) : Server :=
  let s1 := keepTorrentAlive t s in
  let fs := match heap s1 !! t with Some tor => files tor | None => [] end in
  match List.find playable fs with
  | None => setPhase rid req (Replied (Json 404 "No video file found in torrent.")) s1
  | Some file =>
      let '(r, st) := respond file (range req) in
      let s2 := setPhase rid req (Piping t r st) s1 in
      setListeners (errorListeners s2 ++ [t]) s2
  end.

Section Engine.

(** Modelled from the spec: the engine derives the content identifier of a
    magnet link; the parser is not part of the source. *)
Variable infoHashOf : string -> string.

(** Modelled from the spec: [client.get(magnet)] belongs to the swarm
    engine; it returns the live torrent of that content identifier, or
    nothing. *)
Definition clientGet (magnet : string) (s : Server) : option nat :=
  client s !! infoHashOf magnet.

(** Modelled from the spec: [client.add(magnet, cb)] belongs to the swarm
    engine; it creates a torrent that is not ready yet and registers it at
    once; [cb] runs when the torrent becomes ready. *)
Definition clientAdd (magnet : string) (s : Server) : nat * Server :=
  let t := nextTorrent s in
  (t, mkServer (<[t := mkTorrent (infoHashOf magnet) false false []]> (heap s))
        (S t) (<[infoHashOf magnet := t]> (client s)) (activeTorrents s)
        (timers s) (nextTimer s) (now s) (requests s) (waiting s)
        (errorListeners s)).

Definition isReady (t : nat) (s : Server) : bool :=
  match heap s !! t with
  | Some tor => ready tor
  | None => false
  end.

Definition suspend (rid : nat) (req : Req) (p : Phase) (s : Server) : Server :=
  setWaiting (waiting s ++ [rid]) (setPhase rid req p s).

(** Lines 62-80: the handler up to its first suspension. *)
Definition onRequest (rid : nat) (req : Req) (s : Server) : Server :=
  if negb (truthy (magnet req)) then
    setPhase rid req (Replied (Json 400 "Magnet link is required")) s
  else
    let m := default "" (magnet req) in
    match clientGet m s with
    | None =>
        let '(t, s1) := clientAdd m s in
        suspend rid req (AwaitAdd t) s1
    | Some t =>
        if isReady t s then serve rid req t s
        else suspend rid req (AwaitReady t) s
    end.

(** The torrent a suspended request waits for. *)
Definition awaited (s : Server) (rid : nat) : option nat :=
  match requests s !! rid with
  | Some (_, AwaitAdd t) => Some t
  | Some (_, AwaitReady t) => Some t
  | _ => None
  end.

(** The continuation of a suspended handler. *)
Definition resume (s : Server) (rid : nat) : Server :=
  match requests s !! rid with
  | Some (req, AwaitAdd t) =>
      if isReady t s then serve rid req t s
      else suspend rid req (AwaitReady t) s
  | Some (req, AwaitReady t) => serve rid req t s
  | _ => s
  end.

(** The engine reports torrent [t] ready with the file list [fs]: the
    handlers suspended on it continue in the order they subscribed. *)
Definition onReady (t : nat) (fs : list File) (s : Server) : Server :=
  match heap s !! t with
  | None => s
  | Some tor =>
      if ready tor || destroyed tor then s
      else
        let tor' := mkTorrent (infoHash tor) true false fs in
        let woken := filter (λ rid, awaited s rid = Some t) (waiting s) in
        let rest := filter (λ rid, awaited s rid ≠ Some t) (waiting s) in
        foldl resume (setWaiting rest (setHeap (<[t := tor']> (heap s)) s)) woken
  end.

(** The engine emits ['error'] on torrent [t]; [byEngine] tells whether the
    engine had torn the torrent down itself before emitting.  The listeners
    registered on [t] run in registration order.  When there is none, no
    handler runs and the state stays the one the engine left; the event is
    then [unhandled] and the process ends in that state. *)
Definition emitError (t : nat) (byEngine : bool) (s : Server) : Server :=
  let s1 := if byEngine then torrentDestroy t s else s in
  foldl (λ acc t', if decide (t' = t) then onTorrentError t acc else acc)
    s1 (errorListeners s1).

(** [stream.on('error', ...)] of request [rid]. *)
Definition onStreamError (rid : nat) (s : Server) : Server :=
  match requests s !! rid with
  | Some (_, Piping t _ _) => keepTorrentAlive t s
  | _ => s
  end.

(** [res.on('close', ...)] of request [rid]. *)
Definition onClose (rid : nat) (s : Server) : Server :=
  match requests s !! rid with
  | Some (req, Piping t r st) =>
      let st' := if streamDestroyed st then st else mkStream (opts st) true in
      keepTorrentAlive t (setPhase rid req (Piping t r st') s)
  | _ => s
  end.

(** Time passes: every timeout that falls due fires, oldest first. *)
Definition elapse (dt : Z) (s : Server) : Server :=
  let t' := now s + Z.max 0 dt in
  let due := filter (λ p, (deadline p.2 ≤ t')%Z) (timers s) in
  let rest := filter (λ p, ¬ (deadline p.2 ≤ t')%Z) (timers s) in
  foldl (λ acc p, onTimeout (target p.2) acc) (setNow t' (setTimers rest s)) due.

(** ** The event loop *)

Inductive Event : Type :=
| Incoming (rid : nat) (req : Req)
| Ready (t : nat) (fs : list File)
| TorrentError (t : nat) (byEngine : bool)
| StreamError (rid : nat)
| Close (rid : nat)
| Elapse (dt : Z).

Definition step (s : Server) (e : Event) : Server :=
  match e with
  | Incoming rid req =>
      match requests s !! rid with
      | None => onRequest rid req s
      | Some _ => s
      end
  | Ready t fs => onReady t fs s
  | TorrentError t byEngine => emitError t byEngine s
  | StreamError rid => onStreamError rid s
  | Close rid => onClose rid s
  | Elapse dt => elapse dt s
  end.

(** The handlers applied to the events in turn. *)
Definition run (s : Server) (evs : list Event) : Server := foldl step s evs.

(** An ['error'] event that nothing handles.  The only ['error'] listeners
    of the source are those line 153 registers on a torrent, and the source
    has no listener on the client nor a handler for uncaught exceptions.
    Node's [EventEmitter] throws an ['error'] event that has no listener,
    so an ['error'] on a torrent without listener ends the process. *)
Definition unhandled (s : Server) (e : Event) : bool :=
  match e with
  | TorrentError t _ => bool_decide (t ∉ errorListeners s)
  | _ => false
  end.

(** The process: it handles the events in turn as [run] does, up to the
    first unhandled ['error'].  It ends there, in the state the engine
    left, and handles no later event. *)
Fixpoint process (s : Server) (evs : list Event) : Server :=
  match evs with
  | [] => s
  | e :: evs' => if unhandled s e then step s e else process (step s e) evs'
  end.

(** Whether the process has ended during [evs]. *)
Fixpoint exited (s : Server) (evs : list Event) : bool :=
  match evs with
  | [] => false
  | e :: evs' => unhandled s e || exited (step s e) evs'
  end.

End Engine.

(** ** Observations used in the statements *)

(** What request [rid] has been answered so far, if anything. *)
Definition replyOf (s : Server) (rid : nat) : option Reply :=
  match requests s !! rid with
  | Some (_, Replied r) => Some r
  | Some (_, Piping _ r _) => Some r
  | _ => None
  end.

(** The read stream opened for request [rid], if any. *)
Definition streamOf (s : Server) (rid : nat) : option ReadStream :=
  match requests s !! rid with
  | Some (_, Piping _ _ st) => Some st
  | _ => None
  end.

(** [f] is the file [torrent.files.find(...)] returns for torrent [t]. *)
Definition selected (s : Server) (t : nat) (f : File) : Prop :=
  ∃ tor, heap s !! t = Some tor ∧ List.find playable (files tor) = Some f.

(** The start and end offsets the handler derives from a [Range] header
    for a file of length [fileSize] (lines 99-101). *)
Definition parsedStart (rg : string) : Num :=
  parseInt (nth 0 (split "-" (removeFirst "bytes=" rg)) "").

Definition parsedEnd (rg : string) (fileSize : Z) : Num :=
  let parts := split "-" (removeFirst "bytes=" rg) in
  if truthy (parts !! 1%nat) then parseInt (nth 1 parts "")
  else Int (fileSize - 1).

(** The invariant the data model states for a range request. *)
Definition rangeInvariant (st : ReadStream) (fileSize : Z) : Prop :=
  ∃ a b, opts st = Some (Int a, Int b) ∧ 0 ≤ a ∧ a ≤ b ∧ b ≤ fileSize - 1.

Definition is5xx (r : Reply) : Prop := 500 ≤ statusOf r ∧ statusOf r ≤ 599.

(** The states the server can be in: those some sequence of events leads
    to from the initial state. *)
Definition reachable (infoHashOf : string → string) (s : Server) : Prop :=
  ∃ evs, s = run infoHashOf init evs.

(** Torrent [t], of content identifier [h], is torn down and forgotten:
    destroyed, absent from the engine's index and from the cache table. *)
Definition broken (s : Server) (t : nat) (h : string) : Prop :=
  (∃ tor, heap s !! t = Some tor ∧ infoHash tor = h ∧ destroyed tor = true)
  ∧ client s !! h = None
  ∧ activeTorrents s !! h = None.

(** The statuses the [/stream] handler writes. *)
Definition okStatus (r : Reply) : Prop :=
  statusOf r = 200 ∨ statusOf r = 206 ∨ statusOf r = 400 ∨ statusOf r = 404.

(** A torrent being streamed has a playable file. *)
Definition streamable (s : Server) (t : nat) : Prop :=
  ∃ tor f, heap s !! t = Some tor ∧ List.find playable (files tor) = Some f.

Definition phaseOk (s : Server) (p : Phase) : Prop :=
  match p with
  | Piping t r _ => streamable s t ∧ okStatus r
  | Replied r => okStatus r
  | _ => True
  end.

(** What holds of the engine and of the handlers' closures in every
    reachable state. *)
Record wf (s : Server) : Prop := mkWf {
  wf_heap_lt : ∀ t tor, heap s !! t = Some tor → (t < nextTorrent s)%nat;
  wf_client : ∀ h t, client s !! h = Some t →
    ∃ tor, heap s !! t = Some tor ∧ infoHash tor = h ∧ destroyed tor = false;
  wf_live : ∀ t tor, heap s !! t = Some tor → destroyed tor = false →
    client s !! infoHash tor = Some t;
  wf_files : ∀ t tor, heap s !! t = Some tor → ready tor = false →
    files tor = [];
  wf_phase : ∀ rid req p, requests s !! rid = Some (req, p) → phaseOk s p;
  wf_timers : ∀ p, p ∈ timers s → (target p.2 < nextTorrent s)%nat
}.


(** Timer [p] belongs to the content identifier [h]: its callback captured
    a torrent of that identifier. *)
Definition timerOf (s : Server) (h : string) (p : nat * Timer) : Prop :=
  ∃ tor, heap s !! target p.2 = Some tor ∧ infoHash tor = h.

(** No timer of [h] is pending but the one its cache entry records. *)
Definition tracked (s : Server) (h : string) : Prop :=
  ∀ p, p ∈ timers s → timerOf s h p →
    ∃ e, activeTorrents s !! h = Some e ∧ timeout e = p.1.

(** The entry of [h] holds torrent [t] and timer [k], due at [d], and no
    other timer of [h] is pending. *)
Definition armed (s : Server) (h : string) (t k : nat) (d : Z) : Prop :=
  activeTorrents s !! h = Some (mkEntry t k)
  ∧ (∃ tor, heap s !! t = Some tor ∧ infoHash tor = h)
  ∧ (k, mkTimer d t) ∈ timers s
  ∧ ∀ p, p ∈ timers s → timerOf s h p → p = (k, mkTimer d t).

(** The same torrents with the same content identifiers. *)
Definition sameHashes (s s' : Server) : Prop :=
  ∀ a, infoHash <$> heap s' !! a = infoHash <$> heap s !! a.

(** The timers are in order: each is the one its entry records, and
    handles are not reused. *)
Record timersOk (s : Server) : Prop := mkTimersOk {
  to_tracked : ∀ h, tracked s h;
  to_unique : ∀ p q, p ∈ timers s → q ∈ timers s → p.1 = q.1 → p = q;
  to_fresh : ∀ p, p ∈ timers s → (p.1 < nextTimer s)%nat
}.

(** An event other than a torrent error. *)
Definition errorFree (e : Event) : Prop := ∀ t b, e ≠ TorrentError t b.

(** Torrent [t] has been destroyed. *)
Definition isDestroyed (s : Server) (t : nat) : Prop :=
  ∃ tor, heap s !! t = Some tor ∧ destroyed tor = true.



(** Request [rid], whose handler got hold of torrent [t], has been
    answered from it: it streams from [t], or [t] had no playable file. *)
Definition resolved (s : Server) (rid : nat) (req : Req) (t : nat) : Prop :=
  (∃ r st, requests s !! rid = Some (req, Piping t r st))
  ∨ requests s !! rid
    = Some (req, Replied (Json 404 "No video file found in torrent.")).

(** ** A concrete run, used to instantiate the statements *)

(** An engine that takes the magnet link itself as content identifier. *)
Definition idHash (m : string) : string := m.

Definition movie : File := mkFile "movie.mkv" 1000.

Definition notes : File := mkFile "readme.txt" 10.

(** One request for ["magnet:?xt=urn:btih:c0ffee"] whose torrent became
    ready with a text file and a video: the request is being streamed. *)
Definition demo : Server :=
  run idHash init
    [Incoming 1 (mkReq (Some "magnet:?xt=urn:btih:c0ffee") None);
     Ready 0 [notes; movie]].


(** A session that is cached without an ['error'] listener: its torrent
    holds no video file, so request 1 was answered 404 and its handler
    returned at line 92, after line 83 had cached the session and before
    line 153. *)
Definition unheardEvents : list Event :=
  [Incoming 1 (mkReq (Some "magnet:?xt=urn:btih:c0ffee") None);
   Ready 0 [notes]].

(** A session breaks and is created anew: a request is streamed from
    torrent 0 (timer armed at time 0); the engine emits ['error'] on it; at
    time 2000 a second request for the same magnet link has the engine
    create torrent 1, whose entry is refreshed at time 2000 (ready) and at
    time 3000 (the client disconnects). *)
Definition staleEvents : list Event :=
  [Incoming 1 (mkReq (Some "magnet:?xt=urn:btih:c0ffee") None);
   Ready 0 [movie];
   TorrentError 0 true;
   Elapse 2000;
   Incoming 2 (mkReq (Some "magnet:?xt=urn:btih:c0ffee") None);
   Ready 1 [movie];
   Elapse 1000;
   Close 2].

(** ** The [/search] handler *)

Module Search.

(** The value of a hexadecimal digit, in either case, from its code. *)
Definition hexOf (c : ascii) : option Z :=
  let n := Z.of_nat (nat_of_ascii c) in
  if (48 <=? n) && (n <=? 57) then Some (n - 48)
  else if (97 <=? n) && (n <=? 102) then Some (n - 87)
  else if (65 <=? n) && (n <=? 70) then Some (n - 55)
  else None.

(** The value of the longest prefix of hexadecimal digits of [s]; [NaN]
    when there is none. *)
Fixpoint scanHex (s : string) (acc : Z) (seen : bool) : Num :=
  match s with
  | String c r =>
      match hexOf c with
      | Some v => scanHex r (16 * acc + v) true
      | None => if seen then Int acc else NaN
      end
  | EmptyString => if seen then Int acc else NaN
  end.

Definition negate (n : Num) : Num :=
  match n with
  | Int z => Int (- z)
  | NaN => NaN
  end.

(** [parseInt(s)] without a radix: as [parseInt(s, 10)], but digits after
    a prefix [0x] or [0X] are read in base 16.  As for [parseInt], the
    result is the code's when the integer the digits denote is safe. *)
Definition parseIntAuto (s : string) : Num :=
  let t := trimStart s in
  let '(neg, body) :=
    match t with
    | String "-"%char r => (true, r)
    | String "+"%char r => (false, r)
    | _ => (false, t)
    end in
  let n :=
    match body with
    | String "0"%char (String "x"%char r) => scanHex r 0 false
    | String "0"%char (String "X"%char r) => scanHex r 0 false
    | _ =>
        match scanDigits body with
        | Nil => NaN
        | d => Int (Z.of_uint d)
        end
    end in
  if neg then negate n else n.

(** [parseInt(v)] for a query parameter that may be [undefined]. *)
Definition parseParam (v : option string) : Num :=
  parseIntAuto (default "undefined" v).

(** [n || d] for a number: [NaN] and [0] are falsy. *)
Definition orElse (n : Num) (d : Z) : Z :=
  match n with
  | Int z => if z =? 0 then d else z
  | NaN => d
  end.

(** The characters [encodeURIComponent] leaves as they are. *)
Definition unreserved (c : ascii) : bool :=
  let n := nat_of_ascii c in
  ((65 <=? n)%nat && (n <=? 90)%nat)
  || ((97 <=? n)%nat && (n <=? 122)%nat)
  || ((48 <=? n)%nat && (n <=? 57)%nat)
  || (n =? 45)%nat || (n =? 95)%nat || (n =? 46)%nat || (n =? 33)%nat
  || (n =? 126)%nat || (n =? 42)%nat || (n =? 39)%nat || (n =? 40)%nat
  || (n =? 41)%nat.

Definition hexDigit (n : nat) : ascii :=
  match n with
  | 0 => "0" | 1 => "1" | 2 => "2" | 3 => "3" | 4 => "4" | 5 => "5"
  | 6 => "6" | 7 => "7" | 8 => "8" | 9 => "9" | 10 => "A" | 11 => "B"
  | 12 => "C" | 13 => "D" | 14 => "E" | _ => "F"
  end%char%nat.

(** [%XX] for the byte [n]. *)
Definition percent (n : nat) (rest : string) : string :=
  String "%" (String (hexDigit (n / 16)) (String (hexDigit (n mod 16)) rest)).

(** [encodeURIComponent(s)] for a string of characters up to U+00FF: an
    unreserved character is kept, any other is replaced by the escaped
    bytes of its UTF-8 encoding (one byte below U+0080, two above). *)
Fixpoint encodeURIComponent (s : string) : string :=
  match s with
  | EmptyString => EmptyString
  | String c r =>
      let n := nat_of_ascii c in
      if unreserved c then String c (encodeURIComponent r)
      else if (n <? 128)%nat then percent n (encodeURIComponent r)
      else percent (192 + n / 64) (percent (128 + n mod 64) (encodeURIComponent r))
  end.

(** An element of the upstream answer, with the fields the handler reads;
    a field the answer lacks is [None]. *)
Record Item : Type := mkItem {
  itemName : option string;
  itemSize : option string;
  itemSeeders : option string;
  itemLeechers : option string;
  itemInfoHash : option string
}.

(** An element of [results]: [{ name, size, seeders, leechers, magnet }]. *)
Record Result : Type := mkResult {
  name : option string;
  size : option string;
  seeders : option string;
  leechers : option string;
  magnet : string
}.

(** The body of a successful answer. *)
Record Page : Type := mkPage {
  totalResults : Z;
  currentPage : Z;
  perPage : Z;
  totalPages : Z;
  results : list Result
}.

Inductive Reply : Type :=
| Failure (status : Z) (error : string)
| Success (body : Page).

(** What [req.query] holds for the handler. *)
Record Query : Type := mkQuery {
  query : option string;
  page : option string;
  limit : option string
}.

(** The address the handler fetches (line 32). *)
Definition searchUrl (q : string) : string :=
  "https://apibay.org/q.php?q=" ++ encodeURIComponent q ++ "&cat=0".

(** The magnet link of line 40. *)
Definition magnetOf (item : Item) : string :=
  "magnet:?xt=urn:btih:" ++ default "undefined" (itemInfoHash item)
  ++ "&dn=" ++ encodeURIComponent (default "undefined" (itemName item)).

(** Lines 34-41: [.filter(item => item.name).map(item => ({ ... }))]. *)
Definition allTorrents (data : list Item) : list Result :=
  List.map
    (λ item, mkResult (itemName item) (itemSize item) (itemSeeders item)
               (itemLeechers item) (magnetOf item))
    (List.filter (λ item, truthy (itemName item)) data).

(** An index of [slice] made relative to the length [len]. *)
Definition relative (len k : Z) : Z :=
  if k <? 0 then Z.max (len + k) 0 else Z.min k len.

(** [l.slice(start, end)] *)
Definition slice {A} (l : list A) (start end_ : Z) : list A :=
  let len := Z.of_nat (length l) in
  let k := relative len start in
  let final := relative len end_ in
  take (Z.to_nat (final - k)) (drop (Z.to_nat k) l).

(** [Math.ceil(a / b)] for integers, [b] not zero. *)
Definition ceilDiv (a b : Z) : Z := - ((- a) / b).

(** Lines 43-54: the page cut out of [all]. *)
Definition paginate (all : list Result) (page limit : Z) : Page :=
  let totalResults := Z.of_nat (length all) in
  let startIndex := (page - 1) * limit in
  let endIndex := startIndex + limit in
  let paginatedResults := slice all startIndex endIndex in
  mkPage totalResults page limit (ceilDiv totalResults limit) paginatedResults.

(** The handler of [app.get('/search', ...)].  [fetch] is the upstream
    service: the array it answers with for an address, or [None] when the
    request fails or the answer is not an array of objects. *)
Definition search (q : Query) (fetch : string → option (list Item)) : Reply :=
  let page := orElse (parseParam (page q)) 1 in
  let limit := orElse (parseParam (limit q)) 10 in
  if negb (truthy (query q)) then Failure 400 "Query is required"
  else
    match fetch (searchUrl (default "" (query q))) with
    | None => Failure 500 "Error fetching torrents"
    | Some data => Success (paginate (allTorrents data) page limit)
    end.

End Search.

(** * Facts about the JavaScript values *)

Section Facts.

Variable infoHashOf : string → string.

Local Abbreviation clientGet := (clientGet infoHashOf).
Local Abbreviation clientAdd := (clientAdd infoHashOf).
Local Abbreviation onRequest := (onRequest infoHashOf).
Local Abbreviation step := (step infoHashOf).
Local Abbreviation run := (run infoHashOf).
Local Abbreviation process := (process infoHashOf).
Local Abbreviation exited := (exited infoHashOf).

Lemma scanDigits_showUint (d : uint) : scanDigits (showUint d) = d.
Proof.
  induction d; simpl; rewrite ?IHd; done.
Qed.

Lemma split_showUint (d : uint) (r : string) :
  split "-" (showUint d ++ String "-" r) = showUint d :: split "-" r.
Proof.
  induction d; simpl; rewrite ?IHd; done.
Qed.

Lemma split_showUint_end (d : uint) :
  split "-" (showUint d) = [showUint d].
Proof.
  induction d; simpl; rewrite ?IHd; done.
Qed.

Lemma showUint_truthy (d : uint) : d ≠ Nil → truthy (Some (showUint d)) = true.
Proof. destruct d; done. Qed.

Lemma parseInt_showUint (d : uint) :
  d ≠ Nil → parseInt (showUint d) = Int (Z.of_uint d).
Proof.
  intros Hd. unfold parseInt.
  destruct d as [|d'|d'|d'|d'|d'|d'|d'|d'|d'|d']; [done|..];
    simpl showUint; simpl trimStart; cbv iota beta;
    simpl scanDigits; rewrite scanDigits_showUint; reflexivity.
Qed.

(** A non-negative integer prints as its decimal digits. *)
Lemma toString_nonneg (z : Z) :
  0 ≤ z → ∃ d, toString (Int z) = showUint d ∧ d ≠ Nil ∧ Z.of_uint d = z.
Proof.
  intros Hz. unfold toString.
  pose proof (DecimalZ.of_to z) as Hof.
  destruct z as [|p|p]; [| |lia].
  - exists (D0 Nil). done.
  - exists (Pos.to_uint p). simpl in *. split; [done|]. split.
    + apply DecimalPos.Unsigned.to_uint_nonnil.
    + exact Hof.
Qed.

Lemma parseInt_toString (z : Z) : 0 ≤ z → parseInt (toString (Int z)) = Int z.
Proof.
  intros Hz. destruct (toString_nonneg z Hz) as (d & -> & Hd & <-).
  by apply parseInt_showUint.
Qed.

Lemma parseInt_nonneg_digits (d : uint) : 0 ≤ Z.of_uint d.
Proof. unfold Z.of_uint. apply N2Z.is_nonneg. Qed.

Lemma append_cons (c : ascii) (a b : string) :
  (String c a ++ b)%string = String c (a ++ b)%string.
Proof. reflexivity. Qed.

Lemma substring_all (s : string) : substring 0 (String.length s) s = s.
Proof. induction s; simpl; rewrite ?IHs; done. Qed.

Lemma substring_skip (p s : string) (n : nat) :
  substring (String.length p) n (p ++ s) = substring 0 n s.
Proof. induction p; rewrite ?append_cons; simpl; done. Qed.

Lemma string_length_app (p s : string) :
  String.length (p ++ s) = (String.length p + String.length s)%nat.
Proof. induction p; rewrite ?append_cons; simpl; rewrite ?IHp; done. Qed.

Lemma substring_cut (s : string) (n : nat) :
  (n ≤ String.length s)%nat →
  s = (substring 0 n s ++ substring n (String.length s - n) s)%string.
Proof.
  revert n. induction s as [|c s IH]; intros [|n] Hn; simpl in *; try lia.
  - done.
  - by rewrite substring_all.
  - rewrite append_cons. f_equal. apply IH. lia.
Qed.

(** [endsWith] is the suffix test. *)
Lemma endsWith_spec (s suf : string) :
  endsWith s suf = true ↔ ∃ stem, s = (stem ++ suf)%string.
Proof.
  unfold endsWith. rewrite andb_true_iff, Nat.leb_le, String.eqb_eq. split.
  - intros [Hle Hsub].
    exists (substring 0 (String.length s - String.length suf) s).
    pose proof (substring_cut s (String.length s - String.length suf)) as Hc.
    replace (String.length s - (String.length s - String.length suf))%nat
      with (String.length suf) in Hc by lia.
    rewrite Hsub in Hc. apply Hc. lia.
  - intros [stem ->]. rewrite string_length_app. split; [lia|].
    replace (String.length stem + String.length suf - String.length suf)%nat
      with (String.length stem) by lia.
    by rewrite substring_skip, substring_all.
Qed.

(** * Facts about the handler *)

Lemma keepTorrentAlive_heap t s : heap (keepTorrentAlive t s) = heap s.
Proof.
  unfold keepTorrentAlive. destruct (heap s !! t); [|done].
  destruct (activeTorrents s !! _); done.
Qed.

Lemma keepTorrentAlive_requests t s : requests (keepTorrentAlive t s) = requests s.
Proof.
  unfold keepTorrentAlive. destruct (heap s !! t); [|done].
  destruct (activeTorrents s !! _); done.
Qed.

Lemma keepTorrentAlive_client t s : client (keepTorrentAlive t s) = client s.
Proof.
  unfold keepTorrentAlive. destruct (heap s !! t); [|done].
  destruct (activeTorrents s !! _); done.
Qed.

Lemma keepTorrentAlive_nextTorrent t s :
  nextTorrent (keepTorrentAlive t s) = nextTorrent s.
Proof.
  unfold keepTorrentAlive. destruct (heap s !! t); [|done].
  destruct (activeTorrents s !! _); done.
Qed.


Lemma keepTorrentAlive_listeners t s :
  errorListeners (keepTorrentAlive t s) = errorListeners s.
Proof.
  unfold keepTorrentAlive. destruct (heap s !! t); [|done].
  destruct (activeTorrents s !! _); done.
Qed.

Lemma serve_selected rid req t s f :
  selected s t f →
  requests (serve rid req t s) !! rid
  = Some (req, Piping t (respond f (range req)).1 (respond f (range req)).2).
Proof.
  intros (tor & Ht & Hf). unfold serve.
  rewrite keepTorrentAlive_heap, Ht, Hf.
  destruct (respond f (range req)) as [r st]. simpl.
  rewrite keepTorrentAlive_requests. apply lookup_insert_eq.
Qed.

Lemma serve_unplayable rid req t s tor :
  heap s !! t = Some tor →
  List.find playable (files tor) = None →
  serve rid req t s
  = setPhase rid req (Replied (Json 404 "No video file found in torrent."))
      (keepTorrentAlive t s).
Proof.
  intros Ht Hf. unfold serve. by rewrite keepTorrentAlive_heap, Ht, Hf.
Qed.

Lemma find_first {A} (p : A → bool) (pre : list A) (x : A) (post : list A) :
  Forall (λ y, p y = false) pre → p x = true →
  List.find p (pre ++ x :: post) = Some x.
Proof.
  induction 1 as [|y pre Hy _ IH]; intros Hx; simpl.
  - by rewrite Hx.
  - rewrite Hy. by apply IH.
Qed.

Lemma find_none {A} (p : A → bool) (l : list A) :
  Forall (λ y, p y = false) l → List.find p l = None.
Proof. induction 1 as [|y l Hy _ IH]; simpl; [done|]. by rewrite Hy. Qed.

(** A header [bytes=a-b] written with decimal numbers is read back as
    [a] and [b], whatever their order and whatever the file length. *)
Lemma parsed_closed (a b : Z) (L : Z) :
  0 ≤ a → 0 ≤ b →
  let rg := ("bytes=" ++ toString (Int a) ++ "-" ++ toString (Int b))%string in
  rg ≠ "" ∧ parsedStart rg = Int a ∧ parsedEnd rg L = Int b.
Proof.
  intros Ha Hb rg. subst rg. unfold parsedStart, parsedEnd.
  destruct (toString_nonneg a Ha) as (da & Ea & Hda & Hza).
  destruct (toString_nonneg b Hb) as (db & Eb & Hdb & Hzb).
  rewrite Ea, Eb. split; [done|].
  change (removeFirst "bytes=" ("bytes=" ++ showUint da ++ "-" ++ showUint db))
    with (showUint da ++ String "-" (showUint db))%string.
  rewrite split_showUint, split_showUint_end. simpl nth. simpl lookup.
  rewrite showUint_truthy by done.
  rewrite !parseInt_showUint by done. by rewrite Hza, Hzb.
Qed.

(** A header [bytes=a-] leaves the end to default to the last byte. *)
Lemma parsed_open (a : Z) (L : Z) :
  0 ≤ a →
  let rg := ("bytes=" ++ toString (Int a) ++ "-")%string in
  rg ≠ "" ∧ parsedStart rg = Int a ∧ parsedEnd rg L = Int (L - 1).
Proof.
  intros Ha rg. subst rg. unfold parsedStart, parsedEnd.
  destruct (toString_nonneg a Ha) as (da & Ea & Hda & Hza).
  rewrite Ea. split; [done|].
  change (removeFirst "bytes=" ("bytes=" ++ showUint da ++ "-"))
    with (showUint da ++ String "-" "")%string.
  rewrite split_showUint. simpl.
  rewrite parseInt_showUint by done. by rewrite Hza.
Qed.

(** The range branch of [respond], in terms of the parsed offsets. *)
Lemma respond_range (f : File) (rg : string) :
  rg ≠ "" →
  respond f (Some rg)
  = (Head 206
       [("Content-Range",
          HStr ("bytes " ++ toString (parsedStart rg) ++ "-"
                ++ toString (parsedEnd rg (fileLength f))
                ++ "/" ++ toString (Int (fileLength f))));
        ("Accept-Ranges", HStr "bytes");
        ("Content-Length",
          HNum (add (sub (parsedEnd rg (fileLength f)) (parsedStart rg)) (Int 1)));
        ("Content-Type", HStr "video/mp4")],
     mkStream (Some (parsedStart rg, parsedEnd rg (fileLength f))) false).
Proof. destruct rg; [done|]. reflexivity. Qed.

(** The pieces of [split] do not contain the separator. *)
Lemma split_pieces (sep : ascii) (s : string) :
  Forall (λ p, includes sep p = false) (split sep s).
Proof.
  induction s as [|c s IH]; simpl.
  - by constructor.
  - destruct (Ascii.eqb c sep) eqn:E; [by constructor|].
    destruct (split sep s) as [|p ps]; [by constructor; [simpl; rewrite E|]|].
    inversion IH; subst. constructor; [|done]. simpl. by rewrite E.
Qed.

Lemma split_nonempty (sep : ascii) (s : string) : split sep s ≠ [].
Proof.
  destruct s as [|c s]; simpl; [done|].
  destruct (Ascii.eqb c sep); [done|]. by destruct (split sep s).
Qed.

Lemma trimStart_includes (c : ascii) (s : string) :
  includes c s = false → includes c (trimStart s) = false.
Proof.
  induction s as [|c' s IH]; simpl; [done|].
  intros H. apply orb_false_iff in H as [H1 H2].
  destruct (isWhiteSpace c'); [by apply IH|]. simpl. by rewrite H1, H2.
Qed.

(** Without a minus sign in its argument, [parseInt] is never negative. *)
Lemma parseInt_nonneg (s : string) (z : Z) :
  includes "-" s = false → parseInt s = Int z → 0 ≤ z.
Proof.
  intros Hs. apply (trimStart_includes "-") in Hs. unfold parseInt.
  destruct (trimStart s) as [|c r]; [done|].
  destruct (Ascii.eqb_spec c "-") as [->|Hc]; [done|].
  assert (∀ body, (match scanDigits body with
                   | Nil => NaN
                   | d => Int (Z.of_uint d)
                   end) = Int z → 0 ≤ z) as Hpos.
  { intros body. destruct (scanDigits body) eqn:E; [done|..];
      intros [= <-]; apply parseInt_nonneg_digits. }
  destruct c as [[] [] [] [] [] [] [] []]; try done; apply Hpos.
Qed.

Lemma parsedStart_nonneg (rg : string) (z : Z) : parsedStart rg = Int z → 0 ≤ z.
Proof.
  unfold parsedStart. intros H. eapply parseInt_nonneg; [|exact H].
  pose proof (split_pieces "-" (removeFirst "bytes=" rg)) as Hp.
  pose proof (split_nonempty "-" (removeFirst "bytes=" rg)) as Hn.
  destruct (split "-" (removeFirst "bytes=" rg)) as [|p ps]; [done|].
  by inversion Hp.
Qed.

Lemma parsedEnd_nonneg (rg : string) (L z : Z) :
  0 < L → parsedEnd rg L = Int z → 0 ≤ z.
Proof.
  unfold parsedEnd. intros HL.
  pose proof (split_pieces "-" (removeFirst "bytes=" rg)) as Hp.
  destruct (split "-" (removeFirst "bytes=" rg)) as [|p [|q ps]]; simpl.
  - intros [= <-]. lia.
  - intros [= <-]. lia.
  - destruct q as [|c q]; simpl; [intros [= <-]; lia|].
    apply parseInt_nonneg. inversion Hp as [|? ? _ Hp']; subst.
    by inversion Hp'.
Qed.

(** * Invariants of the event loop *)

Lemma wf_init : wf init.
Proof. split; intros *; simpl; try rewrite lookup_empty; try done; by intros ?%elem_of_nil. Qed.

Lemma phaseOk_heap (s s' : Server) (p : Phase) :
  (∀ t, streamable s t → streamable s' t) → phaseOk s p → phaseOk s' p.
Proof. intros H. destruct p; simpl; try done. intros [? ?]. split; auto. Qed.

Lemma respond_status (f : File) (rg : option string) : okStatus (respond f rg).1.
Proof. unfold respond, okStatus. destruct (truthy rg); simpl; auto. Qed.

Lemma wf_keepTorrentAlive t s : wf s → wf (keepTorrentAlive t s).
Proof.
  intros [H1 H2 H3 H4 H5 H6]. unfold keepTorrentAlive.
  destruct (heap s !! t) as [tor|] eqn:Ht; [|by split].
  assert (∀ s0, heap s0 = heap s → nextTorrent s0 = nextTorrent s →
                client s0 = client s → requests s0 = requests s →
                (∀ p, p ∈ timers s0 → p ∈ timers s) →
                wf (setActive (<[infoHash tor := mkEntry t (setTimeout t s0).1]>
                                 (activeTorrents (setTimeout t s0).2))
                      (setTimeout t s0).2)) as Hgen.
  { intros s0 E1 E2 E3 E4 E5. split; simpl; rewrite ?E1, ?E2, ?E3, ?E4; try done.
    intros p [Hp| ->%list_elem_of_singleton]%elem_of_app;
      [apply H6, E5, Hp|simpl; by eapply H1]. }
  destruct (activeTorrents s !! infoHash tor) as [e|].
  - apply Hgen; try done. simpl. intros p Hp.
    by apply list_elem_of_filter in Hp as [_ Hp].
  - by apply Hgen.
Qed.

Lemma wf_torrentDestroy t s : wf s → wf (torrentDestroy t s).
Proof.
  intros [H1 H2 H3 H4 H5 H6]. unfold torrentDestroy.
  destruct (heap s !! t) as [tor|] eqn:Ht; [|by split].
  split; simpl.
  - intros t' tor'. rewrite lookup_insert. case_decide; [subst|by apply H1].
    intros _. by eapply H1.
  - intros h t' Hc.
    assert (client s !! h = Some t') as Hc'.
    { case_decide as Hd; [|done].
      by apply lookup_delete_Some in Hc as [_ Hc]. }
    destruct (H2 _ _ Hc') as (tor' & Ht' & Hh & Hd').
    destruct (decide (t = t')) as [->|Hne].
    + exfalso. rewrite Ht in Ht'. injection Ht' as <-. subst h.
      rewrite decide_True in Hc by done. by rewrite lookup_delete_eq in Hc.
    + exists tor'. by rewrite lookup_insert_ne.
  - intros t' tor'. rewrite lookup_insert. case_decide as Hd; [by intros [= <-]|].
    intros Ht' Hd'. specialize (H3 _ _ Ht' Hd').
    case_decide as Hc; [|done].
    rewrite lookup_delete_ne; [done|]. intros E. rewrite E in Hc. congruence.
  - intros t' tor'. rewrite lookup_insert. case_decide; [|by apply H4].
    intros [= <-]. simpl. by apply (H4 t).
  - intros rid req p Hr. eapply phaseOk_heap; [|by eapply H5].
    intros t' (tor' & f & Ht' & Hf). unfold streamable. simpl.
    destruct (decide (t = t')) as [->|Hne].
    + rewrite Ht in Ht'. injection Ht' as <-.
      eexists _, f. by rewrite lookup_insert_eq.
    + exists tor', f. by rewrite lookup_insert_ne.
  - done.
Qed.

Lemma wf_setActive a s : wf s → wf (setActive a s).
Proof. by intros []. Qed.

Lemma wf_setWaiting w s : wf s → wf (setWaiting w s).
Proof. by intros []. Qed.

Lemma wf_setListeners l s : wf s → wf (setListeners l s).
Proof. by intros []. Qed.

Lemma wf_setNow t s : wf s → wf (setNow t s).
Proof. by intros []. Qed.

Lemma wf_setTimers l s : (∀ p, p ∈ l → p ∈ timers s) → wf s → wf (setTimers l s).
Proof. intros Hl []. split; try done. simpl. auto. Qed.

Lemma wf_destroyAndForget t s : wf s → wf (destroyAndForget t s).
Proof.
  intros Hwf. unfold destroyAndForget. destruct (heap s !! t) as [tor|]; [|done].
  apply wf_setActive. destruct (destroyed tor); [done|]. by apply wf_torrentDestroy.
Qed.

Lemma wf_setPhase rid req p s :
  phaseOk s p → wf s → wf (setPhase rid req p s).
Proof.
  intros Hp [H1 H2 H3 H4 H5 H6]. split; try done. simpl.
  intros rid' req' p'. rewrite lookup_insert. case_decide; [|by apply H5].
  by intros [= -> ->].
Qed.

Lemma wf_serve rid req t s : wf s → wf (serve rid req t s).
Proof.
  intros Hwf%(wf_keepTorrentAlive t). unfold serve.
  destruct (heap (keepTorrentAlive t s) !! t) as [tor|] eqn:Ht; simpl.
  - destruct (List.find playable (files tor)) as [f|] eqn:Hf.
    + pose proof (respond_status f (range req)) as Hst.
      destruct (respond f (range req)) as [r st].
      apply wf_setListeners, wf_setPhase; [|done].
      split; [by exists tor, f|done].
    + apply wf_setPhase; [|done]. simpl. unfold okStatus. simpl. auto.
  - apply wf_setPhase; [|done]. simpl. unfold okStatus. simpl. auto.
Qed.

Lemma wf_suspend rid req p s :
  phaseOk s p → wf s → wf (suspend rid req p s).
Proof. intros Hp Hwf. by apply wf_setWaiting, wf_setPhase. Qed.

Lemma wf_clientAdd m s :
  client s !! infoHashOf m = None → wf s → wf (clientAdd m s).2.
Proof.
  intros Hc [H1 H2 H3 H4 H5 H6]. split; simpl.
  - intros t tor. rewrite lookup_insert. case_decide; [subst; lia|].
    intros Ht%H1. lia.
  - intros h t. rewrite lookup_insert. case_decide as Hd.
    + intros [= <-]. subst h. eexists. by rewrite lookup_insert_eq.
    + intros (tor & Ht & Hh & Hd')%H2. exists tor.
      rewrite lookup_insert_ne; [done|]. apply H1 in Ht. lia.
  - intros t tor. rewrite lookup_insert. case_decide as Hd.
    + intros [= <-] _. subst t. simpl. apply lookup_insert_eq.
    + intros Ht Hd'. specialize (H3 _ _ Ht Hd').
      rewrite lookup_insert_ne; [done|]. intros E. rewrite E in Hc. congruence.
  - intros t tor. rewrite lookup_insert. case_decide; [by intros [= <-]|by apply H4].
  - intros rid req p Hr. eapply phaseOk_heap; [|by eapply H5].
    intros t (tor & f & Ht & Hf). exists tor, f. simpl.
    rewrite lookup_insert_ne; [done|]. apply H1 in Ht. lia.
  - intros p Hp%H6. lia.
Qed.

Lemma wf_onRequest rid req s : wf s → wf (onRequest rid req s).
Proof.
  intros Hwf. unfold onRequest. destruct (negb (truthy (magnet req))).
  - apply wf_setPhase; [|done]. simpl. unfold okStatus. simpl. auto.
  - unfold clientGet. destruct (client s !! _) as [t|] eqn:Hc.
    + destruct (isReady t s); [by apply wf_serve|by apply wf_suspend].
    + apply wf_suspend; [done|]. by apply wf_clientAdd.
Qed.

Lemma wf_resume s rid : wf s → wf (resume s rid).
Proof.
  intros Hwf. unfold resume.
  destruct (requests s !! rid) as [[req [t|t|r|t r st]]|]; try done.
  - destruct (isReady t s); [by apply wf_serve|by apply wf_suspend].
  - by apply wf_serve.
Qed.

Lemma wf_foldl {A} (f : Server → A → Server) (l : list A) (s : Server) :
  (∀ s x, wf s → wf (f s x)) → wf s → wf (foldl f s l).
Proof. intros Hf. revert s. induction l; simpl; auto. Qed.

Lemma wf_markReady t tor fs s :
  wf s → heap s !! t = Some tor → ready tor = false → destroyed tor = false →
  wf (setHeap (<[t := mkTorrent (infoHash tor) true false fs]> (heap s)) s).
Proof.
  intros [H1 H2 H3 H4 H5 H6] Ht Hr Hd. split; simpl.
  - intros t' tor'. rewrite lookup_insert. case_decide; [subst|by apply H1].
    intros _. by eapply H1.
  - intros h t' (tor' & Ht' & Hh & Hd')%H2.
    destruct (decide (t = t')) as [->|Hne].
    + rewrite Ht in Ht'. injection Ht' as <-. eexists. by rewrite lookup_insert_eq.
    + exists tor'. by rewrite lookup_insert_ne.
  - intros t' tor'. rewrite lookup_insert. case_decide; [|by apply H3].
    intros [= <-] _. subst. simpl. by apply H3.
  - intros t' tor'. rewrite lookup_insert. case_decide; [by intros [= <-]|by apply H4].
  - intros rid req p Hrq. eapply phaseOk_heap; [|by eapply H5].
    intros t' (tor' & f & Ht' & Hf). unfold streamable. simpl.
    destruct (decide (t = t')) as [->|Hne].
    + rewrite Ht in Ht'. injection Ht' as <-.
      rewrite (H4 _ _ Ht Hr) in Hf. done.
    + exists tor', f. by rewrite lookup_insert_ne.
  - done.
Qed.

Lemma wf_onReady t fs s : wf s → wf (onReady t fs s).
Proof.
  intros Hwf. unfold onReady. destruct (heap s !! t) as [tor|] eqn:Ht; [|done].
  destruct (ready tor) eqn:Hr; [done|]. destruct (destroyed tor) eqn:Hd; [done|].
  simpl. apply wf_foldl; [intros; by apply wf_resume|]. apply wf_setWaiting.
  by apply wf_markReady.
Qed.

Lemma wf_emitError t b s : wf s → wf (emitError t b s).
Proof.
  intros Hwf. unfold emitError. apply wf_foldl.
  - intros s0 t' Hs0. case_decide; [|done]. by apply wf_destroyAndForget.
  - destruct b; [by apply wf_torrentDestroy|done].
Qed.

Lemma wf_elapse dt s : wf s → wf (elapse dt s).
Proof.
  intros Hwf. unfold elapse. apply wf_foldl.
  - intros s0 p Hs0. by apply wf_destroyAndForget.
  - apply wf_setNow, wf_setTimers; [|done].
    intros p Hp. by apply list_elem_of_filter in Hp as [_ Hp].
Qed.

Lemma wf_step s e : wf s → wf (step s e).
Proof.
  intros Hwf. destruct e as [rid req|t fs|t b|rid|rid|dt]; simpl.
  - destruct (requests s !! rid); [done|]. by apply wf_onRequest.
  - by apply wf_onReady.
  - by apply wf_emitError.
  - unfold onStreamError.
    destruct (requests s !! rid) as [[req [| | |t r st]]|]; try done.
    by apply wf_keepTorrentAlive.
  - unfold onClose.
    destruct (requests s !! rid) as [[req [| | |t r st]]|] eqn:Hr; try done.
    apply wf_keepTorrentAlive, wf_setPhase; [|done].
    by apply (wf_phase _ Hwf _ _ _ Hr).
  - by apply wf_elapse.
Qed.

Lemma wf_run s evs : wf s → wf (run s evs).
Proof. revert s. induction evs; simpl; auto using wf_step. Qed.

Lemma reachable_wf s : reachable infoHashOf s → wf s.
Proof. intros [evs ->]. apply wf_run, wf_init. Qed.


(** * What each operation leaves alone *)

Lemma foldl_preserves {A B} (f : Server → A → Server) (g : Server → B)
    (l : list A) (s : Server) :
  (∀ s x, g (f s x) = g s) → g (foldl f s l) = g s.
Proof.
  intros Hf. revert s. induction l as [|x l IH]; intros s; simpl; [done|].
  by rewrite IH, Hf.
Qed.

Lemma torrentDestroy_frame t s :
  requests (torrentDestroy t s) = requests s
  ∧ nextTorrent (torrentDestroy t s) = nextTorrent s
  ∧ activeTorrents (torrentDestroy t s) = activeTorrents s
  ∧ timers (torrentDestroy t s) = timers s
  ∧ waiting (torrentDestroy t s) = waiting s
  ∧ errorListeners (torrentDestroy t s) = errorListeners s.
Proof. unfold torrentDestroy. by destruct (heap s !! t). Qed.

Lemma destroyAndForget_frame t s :
  requests (destroyAndForget t s) = requests s
  ∧ nextTorrent (destroyAndForget t s) = nextTorrent s
  ∧ timers (destroyAndForget t s) = timers s
  ∧ waiting (destroyAndForget t s) = waiting s
  ∧ errorListeners (destroyAndForget t s) = errorListeners s.
Proof.
  unfold destroyAndForget. destruct (heap s !! t) as [tor|]; [|done].
  destruct (destroyed tor); simpl; [done|].
  by destruct (torrentDestroy_frame t s) as (-> & -> & _ & -> & -> & ->).
Qed.

Lemma emitError_requests t b s : requests (emitError t b s) = requests s.
Proof.
  unfold emitError. rewrite (foldl_preserves _ requests).
  - destruct b; [apply torrentDestroy_frame|done].
  - intros s0 t'. case_decide; [apply destroyAndForget_frame|done].
Qed.

Lemma emitError_nextTorrent t b s : nextTorrent (emitError t b s) = nextTorrent s.
Proof.
  unfold emitError. rewrite (foldl_preserves _ nextTorrent).
  - destruct b; [apply torrentDestroy_frame|done].
  - intros s0 t'. case_decide; [apply destroyAndForget_frame|done].
Qed.

Lemma elapse_requests dt s : requests (elapse dt s) = requests s.
Proof.
  unfold elapse. rewrite (foldl_preserves _ requests); [done|].
  intros s0 p. apply destroyAndForget_frame.
Qed.

Lemma serve_heap rid req t s : heap (serve rid req t s) = heap s.
Proof.
  unfold serve. destruct (List.find _ _); [destruct (respond _ _)|]; simpl;
    apply keepTorrentAlive_heap.
Qed.

Lemma serve_client rid req t s : client (serve rid req t s) = client s.
Proof.
  unfold serve. destruct (List.find _ _); [destruct (respond _ _)|]; simpl;
    apply keepTorrentAlive_client.
Qed.

Lemma serve_nextTorrent rid req t s : nextTorrent (serve rid req t s) = nextTorrent s.
Proof.
  unfold serve. destruct (List.find _ _); [destruct (respond _ _)|]; simpl;
    apply keepTorrentAlive_nextTorrent.
Qed.


Lemma serve_requests_ne rid rid' req t s :
  rid' ≠ rid → requests (serve rid req t s) !! rid' = requests s !! rid'.
Proof.
  intros Hne. unfold serve.
  destruct (List.find _ _); [destruct (respond _ _)|]; simpl;
    rewrite lookup_insert_ne by done; by rewrite keepTorrentAlive_requests.
Qed.

Lemma onRequest_requests_ne rid rid' req s :
  rid' ≠ rid → requests (onRequest rid req s) !! rid' = requests s !! rid'.
Proof.
  intros Hne. unfold onRequest. destruct (negb _); simpl.
  - by rewrite lookup_insert_ne.
  - destruct (clientGet _ s) as [t|]; simpl.
    + destruct (isReady t s); [by apply serve_requests_ne|].
      simpl. by rewrite lookup_insert_ne.
    + by rewrite lookup_insert_ne.
Qed.

Lemma resume_requests_ne s rid rid' :
  rid' ≠ rid → requests (resume s rid) !! rid' = requests s !! rid'.
Proof.
  intros Hne. unfold resume.
  destruct (requests s !! rid) as [[req [t|t|r|t r st]]|]; try done.
  - destruct (isReady t s); [by apply serve_requests_ne|].
    simpl. by rewrite lookup_insert_ne.
  - by apply serve_requests_ne.
Qed.

Lemma foldl_resume_requests (l : list nat) (s : Server) (rid : nat) :
  rid ∉ l → requests (foldl resume s l) !! rid = requests s !! rid.
Proof.
  revert s. induction l as [|x l IH]; intros s Hl; simpl; [done|].
  apply not_elem_of_cons in Hl as [Hx Hl].
  rewrite IH by done. by apply resume_requests_ne.
Qed.

Lemma foldl_inv {A} (I : Server → Prop) (P : A → Prop)
    (f : Server → A → Server) (l : list A) (s : Server) :
  (∀ s x, I s → P x → I (f s x)) → Forall P l → I s → I (foldl f s l).
Proof.
  intros Hf Hl. revert s. induction Hl as [|x l Hx _ IH]; intros s Hs; simpl; auto.
Qed.

Lemma resume_heap (s : Server) (rid : nat) : heap (resume s rid) = heap s.
Proof.
  unfold resume. destruct (requests s !! rid) as [[req [t|t|r|t r st]]|]; try done.
  - destruct (isReady t s); [apply serve_heap|done].
  - apply serve_heap.
Qed.

(** Refreshing arms one timer at [now + TORRENT_TTL] and records it in the
    entry of the torrent's content identifier. *)
Lemma keepTorrentAlive_entry t s tor :
  heap s !! t = Some tor →
  activeTorrents (keepTorrentAlive t s) !! infoHash tor
  = Some (mkEntry t (nextTimer s))
  ∧ (nextTimer s, mkTimer (now s + TORRENT_TTL) t) ∈ timers (keepTorrentAlive t s).
Proof.
  intros Ht. unfold keepTorrentAlive. rewrite Ht.
  destruct (activeTorrents s !! infoHash tor); simpl;
    (split; [apply lookup_insert_eq|]); apply elem_of_app; right;
    apply list_elem_of_singleton; done.
Qed.

(** * The claims about one request *)


(** C4, as amended, for a file length and header bounds that are safe
    integers: for a non-empty [Range] header the handler opens the stream
    at the offsets it parsed, without checking them, and the chunk size is
    end - start + 1; a numeric start is never negative, nor is a numeric
    end of a file that is not empty; a header [bytes=a-] gives start a and
    the end defaults to L - 1; a header [bytes=a-b] with
    0 <= a <= b <= L - 1 gives a range request that satisfies
    0 <= start <= end <= L - 1 and has chunk size b - a + 1. *)
Theorem C4_range_offsets (s : Server) (rid t : nat) (f : File)
    (mg : option string) :
  selected s t f →
  let L := fileLength f in
  safe (Int L) →
  let served rg := serve rid (mkReq mg (Some rg)) t s in
  (∀ rg, rg ≠ "" → safe (parsedStart rg) → safe (parsedEnd rg L) →
     streamOf (served rg) rid
     = Some (mkStream (Some (parsedStart rg, parsedEnd rg L)) false)
     ∧ (replyOf (served rg) rid ≫= header "Content-Length")
       = Some (HNum (add (sub (parsedEnd rg L) (parsedStart rg)) (Int 1)))
     ∧ (∀ z, parsedStart rg = Int z → 0 ≤ z)
     ∧ (0 < L → ∀ z, parsedEnd rg L = Int z → 0 ≤ z))
  ∧ (∀ a, 0 ≤ a → a < 2 ^ 53 →
       streamOf (served ("bytes=" ++ toString (Int a) ++ "-")) rid
       = Some (mkStream (Some (Int a, Int (L - 1))) false))
  ∧ (∀ a b, 0 ≤ a → a ≤ b → b ≤ L - 1 →
       let rg := ("bytes=" ++ toString (Int a) ++ "-" ++ toString (Int b))%string in
       ∃ st, streamOf (served rg) rid = Some st
             ∧ rangeInvariant st L
             ∧ (replyOf (served rg) rid ≫= header "Content-Length")
               = Some (HNum (Int (b - a + 1)))).
Proof.
  intros Hsel L _ served. subst L served. unfold streamOf, replyOf.
  split; [|split].
  - intros rg Hrg _ _. rewrite (serve_selected _ _ _ _ _ Hsel). cbn [range].
    rewrite respond_range by done. simpl.
    split; [done|]. split; [done|]. split; [apply parsedStart_nonneg|].
    intros HL z. by apply parsedEnd_nonneg.
  - intros a Ha _. rewrite (serve_selected _ _ _ _ _ Hsel). cbn [range].
    destruct (parsed_open a (fileLength f) Ha) as (Ht & Hs & He).
    rewrite respond_range by done. by rewrite Hs, He.
  - intros a b Ha Hab Hb. cbv zeta. rewrite (serve_selected _ _ _ _ _ Hsel).
    cbn [range].
    destruct (parsed_closed a b (fileLength f) Ha ltac:(lia)) as (Ht & Hs & He).
    rewrite respond_range by done. rewrite Hs, He.
    eexists. split; [reflexivity|]. split.
    + exists a, b. simpl. repeat split; done.
    + reflexivity.
Qed.

(** C8: [serve] picks the first file of the torrent's list whose name ends
    with [.mp4], [.mkv] or [.avi] and streams it; when no file of the list
    has such a name the request is answered 404 with an error body, and no
    stream is opened and no listener registered. *)
Theorem C8_file_selection (s : Server) (rid t : nat) (req : Req) (tor : Torrent) :
  heap s !! t = Some tor →
  (∀ g, playable g = true
        ↔ ∃ stem, fileName g = (stem ++ ".mp4")%string
                  ∨ fileName g = (stem ++ ".mkv")%string
                  ∨ fileName g = (stem ++ ".avi")%string)
  ∧ (∀ pre f post,
       files tor = (pre ++ f :: post)%list →
       Forall (λ g, playable g = false) pre → playable f = true →
       requests (serve rid req t s) !! rid
       = Some (req, Piping t (respond f (range req)).1 (respond f (range req)).2))
  ∧ (Forall (λ g, playable g = false) (files tor) →
       replyOf (serve rid req t s) rid
       = Some (Json 404 "No video file found in torrent.")
       ∧ streamOf (serve rid req t s) rid = None
       ∧ errorListeners (serve rid req t s) = errorListeners s).
Proof.
  intros Ht. split; [|split].
  - intros g. unfold playable. rewrite !orb_true_iff, !endsWith_spec. split.
    + intros [[[x Hx]|[x Hx]]|[x Hx]]; exists x; auto.
    + intros [x [Hx|[Hx|Hx]]]; [left; left|left; right|right]; by exists x.
  - intros pre f post Hfiles Hpre Hf. apply serve_selected.
    exists tor. split; [done|]. rewrite Hfiles. by apply find_first.
  - intros Hnone. rewrite (serve_unplayable _ _ _ _ _ Ht (find_none _ _ Hnone)).
    unfold replyOf, streamOf, setPhase. simpl. rewrite lookup_insert_eq.
    repeat split. apply keepTorrentAlive_listeners.
Qed.

(** C10, as amended: a request with a non-empty [Range] header is answered
    206, never 416.  Where the file length and the offsets parsed from the
    header are safe integers or [NaN], the offsets are written as they are
    into [Content-Range], their difference plus one into [Content-Length],
    and they are passed to the read stream.  In particular a header
    [bytes=a-b] is echoed as [a] and [b] whatever their order and whatever
    the file length, and text that is not a number is echoed as [NaN].  A
    [Range] header whose value is empty is treated as absent: the answer
    is 200 with the whole file. *)
Theorem C10_range_unvalidated (s : Server) (rid t : nat) (f : File)
    (mg : option string) :
  selected s t f →
  let L := fileLength f in
  safe (Int L) →
  let served rg := serve rid (mkReq mg (Some rg)) t s in
  (∀ rg, rg ≠ "" →
     (∃ r, replyOf (served rg) rid = Some r
           ∧ statusOf r = 206 ∧ statusOf r ≠ 416)
     ∧ (safe (parsedStart rg) → safe (parsedEnd rg L) →
        replyOf (served rg) rid
        = Some (Head 206
                  [("Content-Range",
                     HStr ("bytes " ++ toString (parsedStart rg) ++ "-"
                           ++ toString (parsedEnd rg L) ++ "/"
                           ++ toString (Int L)));
                   ("Accept-Ranges", HStr "bytes");
                   ("Content-Length",
                     HNum (add (sub (parsedEnd rg L) (parsedStart rg)) (Int 1)));
                   ("Content-Type", HStr "video/mp4")])
        ∧ streamOf (served rg) rid
          = Some (mkStream (Some (parsedStart rg, parsedEnd rg L)) false)))
  ∧ (∀ a b, 0 ≤ a → a < 2 ^ 53 → 0 ≤ b → b < 2 ^ 53 →
       let hdr := ("bytes=" ++ toString (Int a) ++ "-" ++ toString (Int b))%string in
       parsedStart hdr = Int a ∧ parsedEnd hdr L = Int b)
  ∧ parsedStart "bytes=abc-xyz" = NaN ∧ parsedEnd "bytes=abc-xyz" L = NaN
  ∧ replyOf (served "") rid
    = Some (Head 200
              [("Content-Length", HNum (Int L));
               ("Content-Type", HStr "video/mp4");
               ("Accept-Ranges", HStr "bytes")])
  ∧ streamOf (served "") rid = Some (mkStream None false).
Proof.
  intros Hsel L _ served. subst L served. unfold replyOf, streamOf.
  split.
  { intros rg Hrg. rewrite (serve_selected _ _ _ _ _ Hsel). cbn [range].
    rewrite respond_range by done. cbn [fst snd].
    split; [eexists; split; [reflexivity|]; simpl; done|]. by intros _ _. }
  split.
  { intros a b Ha _ Hb _.
    by destruct (parsed_closed a b (fileLength f) Ha Hb) as (_ & ? & ?). }
  split; [done|]. split; [done|].
  by rewrite (serve_selected _ _ _ _ _ Hsel).
Qed.

(** C9: a request without [magnet] is answered 400 with the error body
    [{ error: 'Magnet link is required' }], and the cache table, the timers
    and the engine are left as they were. *)
Theorem C9_missing_magnet (s : Server) (rid : nat) (rg : option string) :
  let s' := onRequest rid (mkReq None rg) s in
  replyOf s' rid = Some (Json 400 "Magnet link is required")
  ∧ activeTorrents s' = activeTorrents s
  ∧ timers s' = timers s
  ∧ nextTimer s' = nextTimer s
  ∧ heap s' = heap s
  ∧ client s' = client s.
Proof.
  unfold onRequest, replyOf. simpl. by rewrite lookup_insert_eq.
Qed.

(** * The claims about the session cache *)

(** The state an error listener of [t] needs before it runs, and the state
    it leaves. *)
Lemma destroyAndForget_breaks t s tor :
  wf s → heap s !! t = Some tor →
  (destroyed tor = true → client s !! infoHash tor ≠ Some t) →
  let s' := destroyAndForget t s in
  (∃ tor', heap s' !! t = Some tor' ∧ infoHash tor' = infoHash tor
           ∧ destroyed tor' = true)
  ∧ client s' !! infoHash tor ≠ Some t
  ∧ (client s !! infoHash tor = Some t → client s' !! infoHash tor = None)
  ∧ (client s !! infoHash tor = None → client s' !! infoHash tor = None)
  ∧ activeTorrents s' !! infoHash tor = None.
Proof.
  intros Hwf Ht Hd s'. subst s'. unfold destroyAndForget. rewrite Ht.
  destruct (destroyed tor) eqn:Ed; simpl.
  - split; [by exists tor|]. split; [by apply Hd|].
    split; [intros Hc; by destruct (Hd eq_refl)|]. split; [done|].
    apply lookup_delete_eq.
  - pose proof (wf_live _ Hwf _ _ Ht Ed) as Hc.
    unfold torrentDestroy. rewrite Ht. simpl. rewrite decide_True by done.
    split; [eexists; by rewrite lookup_insert_eq|].
    rewrite !lookup_delete_eq. done.
Qed.

Lemma listeners_break (l : list nat) (s : Server) (t : nat) (tor : Torrent) :
  wf s → heap s !! t = Some tor →
  client s !! infoHash tor = Some t ∨ client s !! infoHash tor = None →
  t ∈ l ∨ broken s t (infoHash tor) →
  broken
    (foldl (λ acc t', if decide (t' = t) then onTorrentError t acc else acc) s l)
    t (infoHash tor).
Proof.
  revert s tor. induction l as [|t' l IH]; intros s tor Hwf Ht Hc Hl; simpl.
  - destruct Hl as [Hl%elem_of_nil|Hb]; done.
  - case_decide as Hd.
    + assert (destroyed tor = true → client s !! infoHash tor ≠ Some t) as Hdc.
      { intros Ed Hc'. destruct (wf_client _ Hwf _ _ Hc') as (tor' & Ht' & _ & Ed').
        rewrite Ht in Ht'. injection Ht' as <-. congruence. }
      destruct (destroyAndForget_breaks t s tor Hwf Ht Hdc)
        as ((tor' & Ht' & Hh & Ed) & Hne & Hs & Hn & Ha).
      assert (client (destroyAndForget t s) !! infoHash tor = None) as Hnone.
      { destruct Hc; auto. }
      unfold onTorrentError. rewrite <- Hh.
      apply IH; rewrite ?Hh; auto using wf_destroyAndForget.
      right. split; [by exists tor'|done].
    + apply IH; try done. destruct Hl as [Hl|Hb]; [|by right].
      left. apply elem_of_cons in Hl as [->|Hl]; done.
Qed.

(** A destroyed torrent stays destroyed, and the engine never hands it out
    again. *)
Lemma isDestroyed_torrentDestroy s t a :
  isDestroyed s t → isDestroyed (torrentDestroy a s) t.
Proof.
  intros (tor & Ht & Hd). unfold torrentDestroy, isDestroyed.
  destruct (heap s !! a) as [tor'|] eqn:Ha; [|by exists tor]. simpl.
  destruct (decide (a = t)) as [->|Hne].
  - rewrite lookup_insert_eq. by eexists.
  - rewrite lookup_insert_ne by done. by exists tor.
Qed.

Lemma isDestroyed_destroyAndForget s t a :
  isDestroyed s t → isDestroyed (destroyAndForget a s) t.
Proof.
  intros H. unfold destroyAndForget. destruct (heap s !! a) as [tor|]; [|done].
  destruct (destroyed tor); [done|]. by apply (isDestroyed_torrentDestroy s t a).
Qed.

Lemma isDestroyed_heap s s' t :
  heap s' = heap s → isDestroyed s t → isDestroyed s' t.
Proof. unfold isDestroyed. by intros ->. Qed.

Lemma isDestroyed_step s e t :
  wf s → isDestroyed s t → isDestroyed (step s e) t.
Proof.
  intros Hwf Hd. destruct e as [rid req|t' fs|t' b|rid|rid|dt]; simpl.
  - destruct (requests s !! rid); [done|]. unfold onRequest.
    destruct (negb _); [done|]. destruct (clientGet _ s) as [t'|].
    + destruct (isReady t' s); [|done].
      apply (isDestroyed_heap s); [apply serve_heap|done].
    + destruct Hd as (tor & Ht & Hd). exists tor. split; [|done]. simpl.
      rewrite lookup_insert_ne; [done|]. apply (wf_heap_lt _ Hwf) in Ht. lia.
  - unfold onReady. destruct (heap s !! t') as [tor'|] eqn:Ht'; [|done].
    destruct (ready tor' || destroyed tor') eqn:Hg; [done|].
    apply orb_false_iff in Hg as [_ Hg].
    apply (foldl_inv (λ s0, isDestroyed s0 t) (λ _, True));
      [|by apply Forall_true|].
    + intros s0 x Hs0 _. apply (isDestroyed_heap s0); [apply resume_heap|done].
    + destruct Hd as (tor & Ht & Hd). exists tor. split; [|done]. simpl.
      rewrite lookup_insert_ne; [done|]. intros ->. congruence.
  - unfold emitError.
    apply (foldl_inv (λ s0, isDestroyed s0 t) (λ _, True));
      [|by apply Forall_true|].
    + intros s0 x Hs0 _. case_decide; [|done].
      by apply isDestroyed_destroyAndForget.
    + destruct b; [by apply isDestroyed_torrentDestroy|done].
  - unfold onStreamError.
    destruct (requests s !! rid) as [[req [| | |? ? ?]]|]; try done.
    apply (isDestroyed_heap s); [apply keepTorrentAlive_heap|done].
  - unfold onClose.
    destruct (requests s !! rid) as [[req [| | |? ? ?]]|]; try done.
    apply (isDestroyed_heap s); [|done]. by rewrite keepTorrentAlive_heap.
  - unfold elapse.
    apply (foldl_inv (λ s0, isDestroyed s0 t) (λ _, True));
      [|by apply Forall_true|done].
    intros s0 x Hs0 _. by apply isDestroyed_destroyAndForget.
Qed.

Lemma isDestroyed_run (evs : list Event) (s : Server) (t : nat) :
  wf s → isDestroyed s t → isDestroyed (run s evs) t.
Proof.
  revert s. induction evs as [|e evs IH]; intros s Hwf Hd; simpl; [done|].
  apply IH; [by apply wf_step|by apply isDestroyed_step].
Qed.

(** Where a request's handler has reached line 153 and registered its
    listener on the session, an ['error'] the engine emits on the live
    session is handled: the session is destroyed and its entry leaves the
    cache table; the next request for the same content identifier does not
    find the broken session and has the engine create a new one; and
    whatever happens afterwards, the engine never hands out the broken
    session again. *)
Theorem listened_error_evicts (s : Server) (t : nat) (tor : Torrent) (byEngine : bool) :
  reachable infoHashOf s →
  heap s !! t = Some tor → destroyed tor = false →
  t ∈ errorListeners s →
  let s' := step s (TorrentError t byEngine) in
  (∃ tor', heap s' !! t = Some tor' ∧ destroyed tor' = true)
  ∧ activeTorrents s' !! infoHash tor = None
  ∧ (∀ rid req m,
      requests s' !! rid = None →
      magnet req = Some m → m ≠ "" → infoHashOf m = infoHash tor →
      let s'' := step s' (Incoming rid req) in
      clientGet m s' = None
      ∧ requests s'' !! rid = Some (req, AwaitAdd (nextTorrent s'))
      ∧ nextTorrent s' ≠ t
      ∧ heap s' !! nextTorrent s' = None
      ∧ heap s'' !! nextTorrent s'
        = Some (mkTorrent (infoHash tor) false false [])
      ∧ clientGet m s'' = Some (nextTorrent s'))
  ∧ ∀ evs m, clientGet m (run s' evs) ≠ Some t.
Proof.
  intros Hr Ht Hd Hl s'.
  pose proof (reachable_wf _ Hr) as Hwf.
  pose proof (wf_step _ (TorrentError t byEngine) Hwf) as Hwf'. fold s' in Hwf'.
  assert (broken s' t (infoHash tor)) as ((tor' & Ht' & Hh & Ed) & Hc & Ha).
  { subst s'. simpl. unfold emitError. destruct byEngine.
    - pose proof (wf_torrentDestroy t _ Hwf) as Hwf1.
      destruct (torrentDestroy_frame t s) as (_ & _ & _ & _ & _ & ->).
      pose proof (wf_live _ Hwf _ _ Ht Hd) as Hc.
      assert (heap (torrentDestroy t s) !! t
              = Some (mkTorrent (infoHash tor) (ready tor) true (files tor))
              ∧ client (torrentDestroy t s) !! infoHash tor = None) as [Ht1 Hc1].
      { unfold torrentDestroy. rewrite Ht. simpl. rewrite decide_True by done.
        by rewrite lookup_insert_eq, lookup_delete_eq. }
      apply (listeners_break _ _ t _ Hwf1 Ht1); simpl; auto.
    - apply (listeners_break _ _ t _ Hwf Ht); auto.
      left. by apply (wf_live _ Hwf). }
  split; [by exists tor'|]. split; [done|]. split.
  2: { intros evs m Hget.
       destruct (isDestroyed_run evs s' t Hwf') as (tor2 & Ht2 & Hd2);
         [by exists tor'|].
       destruct (wf_client _ (wf_run _ evs Hwf') _ _ Hget) as (tor3 & Ht3 & _ & Hd3).
       congruence. }
  intros rid req m Hrid Hm Hne Hhash s''.
  assert (nextTorrent s' = nextTorrent s) as Hnext.
  { subst s'. apply emitError_nextTorrent. }
  assert (clientGet m s' = None) as Hget.
  { unfold clientGet. by rewrite Hhash. }
  split; [done|]. subst s''. simpl. rewrite Hrid.
  unfold onRequest. rewrite Hm.
  destruct m as [|c m]; [done|]. simpl truthy. simpl negb. cbv iota.
  simpl default. rewrite Hget. simpl.
  rewrite lookup_insert_eq. split; [done|]. split.
  { rewrite Hnext. apply (wf_heap_lt _ Hwf) in Ht. lia. }
  split.
  { destruct (heap s' !! nextTorrent s') eqn:E; [|done].
    apply (wf_heap_lt _ Hwf') in E. lia. }
  unfold clientGet. simpl. rewrite Hhash.
  by rewrite !lookup_insert_eq.
Qed.


(** A handler suspended on torrent [t] stays suspended under every event
    but the readiness of [t]. *)
Lemma step_pending (s : Server) (e : Event) (rid t : nat) (req : Req) (p : Phase) :
  requests s !! rid = Some (req, p) →
  p = AwaitAdd t ∨ p = AwaitReady t →
  (∀ fs, e ≠ Ready t fs) →
  requests (step s e) !! rid = Some (req, p).
Proof.
  intros Hrid Hp He.
  destruct e as [rid' req'|t' fs|t' b|rid'|rid'|dt]; simpl.
  - destruct (requests s !! rid') eqn:E; [done|].
    rewrite onRequest_requests_ne; [done|]. intros ->. congruence.
  - unfold onReady. destruct (heap s !! t') as [tor|]; [|done].
    destruct (ready tor || destroyed tor); [done|].
    rewrite foldl_resume_requests; [done|].
    intros [Haw _]%list_elem_of_filter. unfold awaited in Haw. rewrite Hrid in Haw.
    destruct (He fs). destruct Hp as [-> | ->]; congruence.
  - by rewrite emitError_requests.
  - unfold onStreamError.
    destruct (requests s !! rid') as [[? [| | |? ? ?]]|]; try done.
    by rewrite keepTorrentAlive_requests.
  - unfold onClose.
    destruct (requests s !! rid') as [[? [| | |? ? ?]]|] eqn:E; try done.
    rewrite keepTorrentAlive_requests. simpl.
    rewrite lookup_insert_ne; [done|]. intros ->.
    destruct Hp as [-> | ->]; congruence.
  - by rewrite elapse_requests.
Qed.

Lemma run_pending (evs : list Event) (s : Server) (rid t : nat) (req : Req)
    (p : Phase) :
  requests s !! rid = Some (req, p) →
  p = AwaitAdd t ∨ p = AwaitReady t →
  Forall (λ e, ∀ fs, e ≠ Ready t fs) evs →
  requests (run s evs) !! rid = Some (req, p).
Proof.
  revert s. induction evs as [|e evs IH]; intros s Hrid Hp Hevs; simpl; [done|].
  inversion Hevs; subst. apply IH; [|done|done]. by apply step_pending with t.
Qed.


Lemma reachable_status (s : Server) (rid : nat) (r : Reply) :
  reachable infoHashOf s → replyOf s rid = Some r → okStatus r.
Proof.
  intros Hwf%reachable_wf. unfold replyOf.
  destruct (requests s !! rid) as [[req p]|] eqn:E; [|done].
  pose proof (wf_phase _ Hwf _ _ _ E) as Hp.
  destruct p; try done; simpl in Hp; intros [= <-]; tauto.
Qed.

(** * A session creation in flight *)















Lemma serve_phase rid req t s :
  (∃ r st, requests (serve rid req t s) !! rid = Some (req, Piping t r st))
  ∨ requests (serve rid req t s) !! rid
    = Some (req, Replied (Json 404 "No video file found in torrent.")).
Proof.
  unfold serve. destruct (List.find _ _); [destruct (respond _ _) as [r st]|];
    simpl; rewrite lookup_insert_eq; eauto.
Qed.















(** * Only ready torrents are cached *)



























(** * The process and its end *)

(** The process follows [run] as long as it has not ended, and what it
    ends in is the state [run] gives for the events up to there. *)
Lemma process_alive (evs : list Event) (s : Server) :
  exited s evs = false → process s evs = run s evs.
Proof.
  revert s. induction evs as [|e evs IH]; intros s; simpl; [done|].
  intros [-> He]%orb_false_iff. by apply IH.
Qed.

Lemma process_prefix (evs : list Event) (s : Server) :
  ∃ pre post, evs = (pre ++ post)%list ∧ process s evs = run s pre.
Proof.
  revert s. induction evs as [|e evs IH]; intros s; simpl.
  - by exists [], [].
  - destruct (unhandled s e).
    + by exists [e], evs.
    + destruct (IH (step s e)) as (pre & post & -> & Hp).
      by exists (e :: pre), post.
Qed.



(** * The claim about a session that cannot be created *)


(** * The claim about concurrent requests *)


(** * The eviction timer without a stale timer *)

Lemma armed_tracked s h t k d : armed s h t k d → tracked s h.
Proof.
  intros (He & _ & _ & Hu) p Hp Ht. rewrite (Hu p Hp Ht). by eexists.
Qed.

(** [keepTorrentAlive] cancels the timer the entry records and arms one at
    [now + TORRENT_TTL]: if no other timer of the identifier was pending,
    the new timer is the only one. *)
Lemma keepTorrentAlive_rearm s t tor :
  heap s !! t = Some tor → tracked s (infoHash tor) →
  armed (keepTorrentAlive t s) (infoHash tor) t (nextTimer s) (now s + TORRENT_TTL).
Proof.
  intros Ht Htr.
  destruct (keepTorrentAlive_entry t s tor Ht) as [He Hin].
  split; [done|]. split; [exists tor; by rewrite keepTorrentAlive_heap|].
  split; [done|]. intros p Hp (tor' & Ht' & Hh).
  rewrite keepTorrentAlive_heap in Ht'.
  unfold keepTorrentAlive in Hp. rewrite Ht in Hp.
  destruct (activeTorrents s !! infoHash tor) as [e|] eqn:Ee; simpl in Hp;
    apply elem_of_app in Hp as [Hp|Hp%list_elem_of_singleton]; try done.
  - apply list_elem_of_filter in Hp as [Hne Hp].
    destruct (Htr p Hp) as (e' & Ee' & Hk); [by exists tor'|].
    rewrite Ee in Ee'. injection Ee' as <-. by destruct Hne.
  - destruct (Htr p Hp) as (e' & Ee' & _); [by exists tor'|]. congruence.
Qed.

Lemma keepTorrentAlive_now t s : now (keepTorrentAlive t s) = now s.
Proof.
  unfold keepTorrentAlive. destruct (heap s !! t); [|done].
  by destruct (activeTorrents s !! _).
Qed.

Lemma sameHashes_refl s : sameHashes s s.
Proof. by intros a. Qed.

Lemma sameHashes_trans s1 s2 s3 :
  sameHashes s1 s2 → sameHashes s2 s3 → sameHashes s1 s3.
Proof. intros H1 H2 a. by rewrite H2, H1. Qed.

Lemma sameHashes_lookup s s' a tor :
  sameHashes s s' → heap s !! a = Some tor →
  ∃ tor', heap s' !! a = Some tor' ∧ infoHash tor' = infoHash tor.
Proof.
  intros H Ha. specialize (H a). rewrite Ha in H.
  destruct (heap s' !! a) as [tor'|]; [|done]. exists tor'. by injection H.
Qed.

Lemma sameHashes_sym s s' : sameHashes s s' → sameHashes s' s.
Proof. intros H a. by rewrite H. Qed.

(** A timer callback changes nothing but the torrent it destroys and the
    entry of that torrent's content identifier. *)
Lemma destroyAndForget_effect a s :
  sameHashes s (destroyAndForget a s)
  ∧ now (destroyAndForget a s) = now s
  ∧ (∀ h, activeTorrents s !! h = None →
          activeTorrents (destroyAndForget a s) !! h = None)
  ∧ (∀ h, (∀ tor, heap s !! a = Some tor → infoHash tor ≠ h) →
          activeTorrents (destroyAndForget a s) !! h = activeTorrents s !! h)
  ∧ (∀ tor, heap s !! a = Some tor →
            activeTorrents (destroyAndForget a s) !! infoHash tor = None).
Proof.
  unfold destroyAndForget. destruct (heap s !! a) as [tor|] eqn:Ha.
  2: { split; [apply sameHashes_refl|]. repeat split; done. }
  assert (sameHashes s (if destroyed tor then s else torrentDestroy a s)
          ∧ now (if destroyed tor then s else torrentDestroy a s) = now s
          ∧ activeTorrents (if destroyed tor then s else torrentDestroy a s)
            = activeTorrents s) as (Hs & Hn & Hact).
  { destruct (destroyed tor); [by split; [apply sameHashes_refl|]|].
    unfold torrentDestroy. rewrite Ha. simpl. split; [|done].
    intros a'. simpl. rewrite lookup_insert. case_decide; [|done].
    subst. by rewrite Ha. }
  simpl. rewrite Hact. split; [done|]. split; [done|]. split; [|split].
  - intros h Hh. rewrite lookup_delete. by case_decide.
  - intros h Hh. apply lookup_delete_ne. by apply Hh.
  - intros tor' [= <-]. apply lookup_delete_eq.
Qed.

Lemma elapse_now dt s : now (elapse dt s) = now s + Z.max 0 dt.
Proof.
  unfold elapse. rewrite (foldl_preserves _ now); [done|].
  intros s0 p. apply destroyAndForget_effect.
Qed.

Lemma elapse_timers dt s :
  timers (elapse dt s)
  = filter (λ p, ¬ (deadline p.2 ≤ now s + Z.max 0 dt)) (timers s).
Proof.
  unfold elapse. rewrite (foldl_preserves _ timers); [done|].
  intros s0 p. apply destroyAndForget_frame.
Qed.

(** While its timer is not due, an entry stays in the table. *)
Lemma elapse_keeps s h t k d dt :
  armed s h t k d → now s + Z.max 0 dt < d → armed (elapse dt s) h t k d.
Proof.
  intros (He & (tor & Ht & Hh) & Hin & Hu) Hlt.
  set (t' := now s + Z.max 0 dt) in *.
  assert (sameHashes s (elapse dt s)
          ∧ activeTorrents (elapse dt s) !! h = Some (mkEntry t k)) as [Hs Hact].
  { unfold elapse. fold t'.
    apply (foldl_inv (λ s0, sameHashes s s0
                            ∧ activeTorrents s0 !! h = Some (mkEntry t k))
             (λ p, p ∈ timers s ∧ deadline p.2 ≤ t')).
    - intros s0 p [Hs0 Ha0] [Hp Hdue].
      destruct (destroyAndForget_effect (target p.2) s0) as (Hs1 & _ & _ & Hoth & _).
      split; [by eapply sameHashes_trans|]. rewrite Hoth; [done|].
      intros tor0 Ht0 Hh0.
      destruct (sameHashes_lookup _ _ _ _ (sameHashes_sym _ _ Hs0) Ht0)
        as (tor1 & Ht1 & Hh1).
      assert (p = (k, mkTimer d t)) as ->.
      { apply Hu; [done|]. exists tor1. split; [done|congruence]. }
      simpl in Hdue. lia.
    - apply Forall_forall. intros p [Hdue Hp]%list_elem_of_filter. done.
    - split; [by intros a|done]. }
  split; [done|]. split.
  { destruct (sameHashes_lookup _ _ _ _ Hs Ht) as (tor' & Ht' & Hh').
    exists tor'. split; [done|congruence]. }
  rewrite elapse_timers. fold t'. split.
  - apply list_elem_of_filter. split; [simpl; lia|done].
  - intros p [_ Hp]%list_elem_of_filter (tor' & Ht' & Hh'). apply Hu; [done|].
    destruct (sameHashes_lookup _ _ _ _ (sameHashes_sym _ _ Hs) Ht')
      as (tor0 & Ht0 & Hh0).
    exists tor0. split; [done|congruence].
Qed.

Lemma timers_evict (l : list (nat * Timer)) (s : Server) (h : string) (t : nat) :
  (∃ tor, heap s !! t = Some tor ∧ infoHash tor = h) →
  (∃ p, p ∈ l ∧ target p.2 = t) ∨ activeTorrents s !! h = None →
  activeTorrents (foldl (λ acc p, onTimeout (target p.2) acc) s l) !! h = None.
Proof.
  revert s. induction l as [|p l IH]; intros s (tor & Ht & Hh) H; simpl.
  - destruct H as [(p & Hp%elem_of_nil & _)|H]; done.
  - destruct (destroyAndForget_effect (target p.2) s) as (Hs & _ & Hnone & _ & Hdel).
    apply IH.
    + destruct (sameHashes_lookup _ _ _ _ Hs Ht) as (tor' & Ht' & Hh').
      exists tor'. split; [done|congruence].
    + destruct H as [(q & Hq & Hqt)|H]; [|right; by apply Hnone].
      apply elem_of_cons in Hq as [->|Hq]; [|left; by exists q].
      right. unfold onTimeout. rewrite <- Hh. apply Hdel. by rewrite Hqt.
Qed.

(** Once its timer is due, an entry is removed. *)
Lemma elapse_evicts s h t k d dt :
  armed s h t k d → d ≤ now s + Z.max 0 dt →
  activeTorrents (elapse dt s) !! h = None.
Proof.
  intros (He & Htor & Hin & Hu) Hle. unfold elapse. apply (timers_evict _ _ h t).
  - done.
  - left. exists (k, mkTimer d t). split; [|done].
    apply list_elem_of_filter. split; [simpl; lia|done].
Qed.

(** Sliding expiry: refreshed at [now] and again [delta] later, with
    [delta < TORRENT_TTL], an entry with no stale timer is in the table
    until [TORRENT_TTL] has passed since the second refresh, and is removed
    then. *)
Lemma sliding_ttl s t tor delta d :
  heap s !! t = Some tor → tracked s (infoHash tor) →
  0 ≤ delta → delta < TORRENT_TTL → 0 ≤ d →
  let s2 := keepTorrentAlive t (elapse delta (keepTorrentAlive t s)) in
  now s2 = now s + delta
  ∧ (d < TORRENT_TTL → is_Some (activeTorrents (elapse d s2) !! infoHash tor))
  ∧ (TORRENT_TTL ≤ d → activeTorrents (elapse d s2) !! infoHash tor = None).
Proof.
  intros Ht Htr H0 Hd Hd0 s2.
  pose proof (keepTorrentAlive_rearm s t tor Ht Htr) as Ha1.
  assert (armed (elapse delta (keepTorrentAlive t s)) (infoHash tor) t
            (nextTimer s) (now s + TORRENT_TTL)) as Ha2.
  { apply elapse_keeps; [done|]. rewrite keepTorrentAlive_now. lia. }
  destruct Ha2 as (He2 & (tor2 & Ht2 & Hh2) & Hin2 & Hu2).
  assert (armed s2 (infoHash tor) t
            (nextTimer (elapse delta (keepTorrentAlive t s)))
            (now s + delta + TORRENT_TTL)) as Ha3.
  { subst s2. rewrite <- Hh2.
    replace (now s + delta) with (now (elapse delta (keepTorrentAlive t s))).
    - apply keepTorrentAlive_rearm; [done|]. rewrite Hh2.
      apply (armed_tracked _ _ t (nextTimer s) (now s + TORRENT_TTL)).
      split; [done|]. split; [by exists tor2|done].
    - rewrite elapse_now, keepTorrentAlive_now. lia. }
  assert (now s2 = now s + delta) as Hnow.
  { subst s2. rewrite keepTorrentAlive_now, elapse_now, keepTorrentAlive_now. lia. }
  split; [done|]. split.
  - intros Hlt. destruct (elapse_keeps _ _ _ _ _ d Ha3) as [-> _]; [lia|done].
  - intros Hge. apply (elapse_evicts _ _ _ _ _ _ Ha3). lia.
Qed.

(** * Runs without a torrent error have no stale timer *)

Lemma timersOk_transfer (s s' : Server) :
  timersOk s →
  timers s' = timers s → nextTimer s' = nextTimer s →
  activeTorrents s' = activeTorrents s →
  (∀ p h, p ∈ timers s → timerOf s' h p → timerOf s h p) →
  timersOk s'.
Proof.
  intros [H1 H2 H3] Et En Ea Hh. split; rewrite ?Et, ?En; try done.
  intros h p. rewrite Et, Ea. intros Hp Hof. apply H1; auto.
Qed.

Lemma keepTorrentAlive_shape t s tor :
  heap s !! t = Some tor →
  nextTimer (keepTorrentAlive t s) = S (nextTimer s)
  ∧ (∀ h, h ≠ infoHash tor →
          activeTorrents (keepTorrentAlive t s) !! h = activeTorrents s !! h)
  ∧ (∀ p, p ∈ timers (keepTorrentAlive t s) →
          p ∈ timers s ∨ p = (nextTimer s, mkTimer (now s + TORRENT_TTL) t)).
Proof.
  intros Ht. unfold keepTorrentAlive. rewrite Ht.
  destruct (activeTorrents s !! infoHash tor); simpl;
    (split; [done|]); (split; [intros h Hne; by rewrite lookup_insert_ne|]);
    intros p [Hp|Hp%list_elem_of_singleton]%elem_of_app; auto.
  left. by apply list_elem_of_filter in Hp as [_ Hp].
Qed.

Lemma timersOk_keepTorrentAlive t s : timersOk s → timersOk (keepTorrentAlive t s).
Proof.
  intros Hok. destruct (heap s !! t) as [tor|] eqn:Ht.
  2: { unfold keepTorrentAlive. by rewrite Ht. }
  destruct (keepTorrentAlive_shape t s tor Ht) as (En & Ea & Hin).
  destruct Hok as [H1 H2 H3]. split.
  - intros h. destruct (decide (h = infoHash tor)) as [->|Hne].
    + eapply armed_tracked. apply keepTorrentAlive_rearm; [done|apply H1].
    + intros p Hp (tor' & Ht' & Hh). rewrite keepTorrentAlive_heap in Ht'.
      rewrite Ea by done. destruct (Hin p Hp) as [Hold| ->].
      * apply H1; [done|by exists tor'].
      * simpl in Ht'. congruence.
  - intros p q Hp Hq E.
    destruct (Hin p Hp) as [Hp'| ->], (Hin q Hq) as [Hq'| ->]; simpl in *; auto.
    + apply H3 in Hp'. lia.
    + apply H3 in Hq'. lia.
  - intros p Hp. rewrite En. destruct (Hin p Hp) as [Hp'%H3| ->]; simpl; lia.
Qed.

Lemma timersOk_serve rid req t s : timersOk s → timersOk (serve rid req t s).
Proof.
  intros Hok%(timersOk_keepTorrentAlive t). unfold serve.
  destruct (List.find _ _); [destruct (respond _ _)|];
    by apply (timersOk_transfer (keepTorrentAlive t s)).
Qed.

Lemma timersOk_onRequest rid req s :
  wf s → timersOk s → timersOk (onRequest rid req s).
Proof.
  intros Hwf Hok. unfold onRequest. destruct (negb _).
  - by apply (timersOk_transfer s).
  - destruct (clientGet _ s) as [t|].
    + destruct (isReady t s); [by apply timersOk_serve|].
      by apply (timersOk_transfer s).
    + apply (timersOk_transfer s); try done.
      intros p h Hp (tor & Ht & Hh). exists tor. split; [|done].
      simpl in Ht. rewrite lookup_insert_ne in Ht; [done|].
      apply (wf_timers _ Hwf) in Hp. lia.
Qed.

Lemma timersOk_resume s rid : timersOk s → timersOk (resume s rid).
Proof.
  intros Hok. unfold resume.
  destruct (requests s !! rid) as [[req [t|t|r|t r st]]|]; try done.
  - destruct (isReady t s); [by apply timersOk_serve|].
    by apply (timersOk_transfer s).
  - by apply timersOk_serve.
Qed.

Lemma timersOk_onReady t fs s : timersOk s → timersOk (onReady t fs s).
Proof.
  intros Hok. unfold onReady. destruct (heap s !! t) as [tor|] eqn:Ht; [|done].
  destruct (ready tor || destroyed tor); [done|].
  apply (foldl_inv timersOk (λ _, True)); [|by apply Forall_true|].
  - intros s0 rid Hs0 _. by apply timersOk_resume.
  - apply (timersOk_transfer s); try done.
    intros p h Hp (tor' & Ht' & Hh). simpl in Ht'.
    rewrite lookup_insert in Ht'. case_decide as Hd; [|by exists tor'].
    injection Ht' as <-. simpl in Hh. exists tor. split; [|done]. by rewrite <- Hd.
Qed.

(** An entry no due timer belongs to is not touched by the passing of
    time. *)
Lemma elapse_other s h dt :
  (∀ p, p ∈ timers s → deadline p.2 ≤ now s + Z.max 0 dt → ¬ timerOf s h p) →
  sameHashes s (elapse dt s)
  ∧ activeTorrents (elapse dt s) !! h = activeTorrents s !! h.
Proof.
  intros Hno. unfold elapse. set (t' := now s + Z.max 0 dt) in *.
  apply (foldl_inv (λ s0, sameHashes s s0
                          ∧ activeTorrents s0 !! h = activeTorrents s !! h)
           (λ p, p ∈ timers s ∧ deadline p.2 ≤ t')).
  - intros s0 p [Hs0 Ha0] [Hp Hdue].
    destruct (destroyAndForget_effect (target p.2) s0) as (Hs1 & _ & _ & Hoth & _).
    split; [by eapply sameHashes_trans|]. rewrite Hoth; [done|].
    intros tor0 Ht0 Hh0.
    destruct (sameHashes_lookup _ _ _ _ (sameHashes_sym _ _ Hs0) Ht0)
      as (tor1 & Ht1 & Hh1).
    apply (Hno p Hp Hdue). exists tor1. split; [done|congruence].
  - apply Forall_forall. intros p [Hdue Hp]%list_elem_of_filter. done.
  - split; [by intros a|done].
Qed.

Lemma timersOk_elapse dt s : timersOk s → timersOk (elapse dt s).
Proof.
  intros [H1 H2 H3]. set (t' := now s + Z.max 0 dt).
  assert (∀ p, p ∈ timers (elapse dt s) → p ∈ timers s ∧ ¬ deadline p.2 ≤ t') as Hin.
  { intros p. rewrite elapse_timers. intros [? ?]%list_elem_of_filter. done. }
  assert (nextTimer (elapse dt s) = nextTimer s) as En.
  { unfold elapse. rewrite (foldl_preserves _ nextTimer); [done|].
    intros s0 p. unfold onTimeout, destroyAndForget.
    destruct (heap s0 !! _) as [tor|]; [|done]. destruct (destroyed tor); [done|].
    unfold torrentDestroy. by destruct (heap s0 !! _). }
  split.
  - intros h p Hp Hof. destruct (Hin p Hp) as [Hp' Hlate].
    destruct (elapse_other s h dt) as [Hs Ha].
    + intros q Hq Hdue Hqh.
      destruct (H1 h q Hq Hqh) as (e & He & Hk).
      assert (timerOf s h p) as Hph.
      { destruct Hof as (tor' & Ht' & Hh').
        assert (sameHashes s (elapse dt s)) as Hs.
        { unfold elapse. apply (foldl_inv (sameHashes s) (λ _, True));
            [|by apply Forall_true|by intros a].
          intros s0 x Hs0 _. eapply sameHashes_trans; [done|].
          apply destroyAndForget_effect. }
        destruct (sameHashes_lookup _ _ _ _ (sameHashes_sym _ _ Hs) Ht')
          as (tor0 & Ht0 & Hh0).
        exists tor0. split; [done|congruence]. }
      destruct (H1 h p Hp' Hph) as (e' & He' & Hk').
      rewrite He in He'. injection He' as <-.
      assert (p = q) as -> by (apply H2; [done|done|congruence]).
      by destruct Hlate.
    + rewrite Ha. apply H1; [done|].
      destruct Hof as (tor' & Ht' & Hh').
      destruct (sameHashes_lookup _ _ _ _ (sameHashes_sym _ _ Hs) Ht')
        as (tor0 & Ht0 & Hh0).
      exists tor0. split; [done|congruence].
  - intros p q [Hp _]%Hin [Hq _]%Hin. by apply H2.
  - intros p [Hp _]%Hin. rewrite En. by apply H3.
Qed.

Lemma timersOk_step s e :
  wf s → errorFree e → timersOk s → timersOk (step s e).
Proof.
  intros Hwf He Hok. destruct e as [rid req|t fs|t b|rid|rid|dt]; simpl.
  - destruct (requests s !! rid); [done|]. by apply timersOk_onRequest.
  - by apply timersOk_onReady.
  - by destruct (He t b).
  - unfold onStreamError.
    destruct (requests s !! rid) as [[req [| | |t r st]]|]; try done.
    by apply timersOk_keepTorrentAlive.
  - unfold onClose.
    destruct (requests s !! rid) as [[req [| | |t r st]]|]; try done.
    apply timersOk_keepTorrentAlive. by apply (timersOk_transfer s).
  - by apply timersOk_elapse.
Qed.

Lemma timersOk_run (evs : list Event) (s : Server) :
  wf s → Forall errorFree evs → timersOk s → timersOk (run s evs).
Proof.
  intros Hwf Hevs. revert s Hwf.
  induction Hevs as [|e evs He _ IH]; intros s Hwf Hok; simpl; [done|].
  apply IH; [by apply wf_step|by apply timersOk_step].
Qed.

Lemma timersOk_init : timersOk init.
Proof.
  split.
  - intros h p Hp. by apply elem_of_nil in Hp.
  - intros p q Hp. by apply elem_of_nil in Hp.
  - intros p Hp. by apply elem_of_nil in Hp.
Qed.

(** In a run without a torrent error the expiry is sliding: an entry
    refreshed at [now] and again [delta < TORRENT_TTL] later stays in the
    table until [TORRENT_TTL] after the second refresh, and is removed
    then. *)
Lemma sliding_ttl_error_free (evs : list Event) (t : nat) (tor : Torrent)
    (delta d : Z) :
  Forall errorFree evs →
  let s := run init evs in
  heap s !! t = Some tor →
  0 ≤ delta → delta < TORRENT_TTL → 0 ≤ d →
  let s2 := keepTorrentAlive t (elapse delta (keepTorrentAlive t s)) in
  now s2 = now s + delta
  ∧ (d < TORRENT_TTL → is_Some (activeTorrents (elapse d s2) !! infoHash tor))
  ∧ (TORRENT_TTL ≤ d → activeTorrents (elapse d s2) !! infoHash tor = None).
Proof.
  intros Hevs s Ht H0 Hd Hd0. apply sliding_ttl; try done.
  by apply (timersOk_run evs init wf_init Hevs), timersOk_init.
Qed.

(** * The claim about a client that disconnects *)




End Facts.

(** * The claim about the eviction timer *)

(** C2, at the failing input: after a session broke and was created anew,
    the timer armed for the broken session is still pending.  The new entry
    is refreshed at times 2000 and 3000, so it is due at 603000; two timers
    are pending for its content identifier, and at time 600000 the older one
    removes the entry from the cache table. *)
Theorem C2_stale_timer_evicts_early :
  let h := "magnet:?xt=urn:btih:c0ffee" in
  let before := run idHash init staleEvents in
  let after := step idHash before (Elapse 597000) in
  now before = 3000
  ∧ activeTorrents before !! h = Some (mkEntry 1 2)
  ∧ timers before = [(0%nat, mkTimer 600000 0); (2%nat, mkTimer 603000 1)]
  ∧ now after = 600000
  ∧ activeTorrents after !! h = None
  ∧ timers after = [(2%nat, mkTimer 603000 1)].
Proof. vm_compute. repeat split. Qed.

(** * The claim about a fatal session error *)

(** C6: the code does not evict a session that was cached by a request
    answered 404.  No listener is registered on it, so when the engine
    emits ['error'] on it, whether it tore the torrent down or not, the
    entry stays in the cache table; the event is unhandled and the process
    ends there: the next request for the content identifier is not served
    and no new session is created. *)
Theorem C6_unheard_error_keeps_entry :
  let h := "magnet:?xt=urn:btih:c0ffee" in
  let req := mkReq (Some h) None in
  let before := run idHash init unheardEvents in
  let after := step idHash before (TorrentError 0 true) in
  replyOf before 1 = Some (Json 404 "No video file found in torrent.")
  ∧ activeTorrents before !! h = Some (mkEntry 0 0)
  ∧ errorListeners before = []
  ∧ unhandled before (TorrentError 0 true) = true
  ∧ activeTorrents after !! h = Some (mkEntry 0 0)
  ∧ timers after = [(0%nat, mkTimer 600000 0)]
  ∧ activeTorrents (step idHash before (TorrentError 0 false)) !! h
    = Some (mkEntry 0 0)
  ∧ exited idHash init (unheardEvents ++ [TorrentError 0 true]) = true
  ∧ process idHash init (unheardEvents ++ [TorrentError 0 true; Incoming 2 req])
    = after
  ∧ requests after !! 2%nat = None
  ∧ nextTorrent after = 1%nat.
Proof. vm_compute. repeat split. Qed.

(** * Counterexamples *)

(** C4 as stated fails: for the header [bytes=500-100] on a file of 1000
    bytes the stream is opened with start 500 and end 100. *)
Lemma C4_counterexample :
  selected demo 0 movie
  ∧ ∃ st, streamOf (serve 2 (mkReq None (Some "bytes=500-100")) 0 demo) 2 = Some st
          ∧ opts st = Some (Int 500, Int 100)
          ∧ ¬ rangeInvariant st (fileLength movie).
Proof.
  split; [by eexists; split; vm_compute|].
  eexists. split; [by vm_compute|]. split; [done|].
  intros (a & b & [= <- <-] & _ & Hab & _). lia.
Qed.



(** C10 as stated fails: a request that carries a [Range] header with an
    empty value is answered 200 with the whole file. *)
Lemma C10_counterexample :
  selected demo 0 movie
  ∧ ∃ r, replyOf (serve 2 (mkReq None (Some "")) 0 demo) 2 = Some r
         ∧ statusOf r = 200
         ∧ streamOf (serve 2 (mkReq None (Some "")) 0 demo) 2
           = Some (mkStream None false).
Proof.
  split; [by eexists; split; vm_compute|].
  eexists. split; [by vm_compute|]. split; [done|by vm_compute].
Qed.

(** * The statements at a concrete run *)

Lemma demo_reachable : reachable idHash demo.
Proof. by eexists. Defined.

Lemma demo_selected : selected demo 0 movie.
Proof. exists (mkTorrent "magnet:?xt=urn:btih:c0ffee" true false [notes; movie]). by vm_compute. Defined.



Lemma C4_witness :
  ∃ st, streamOf (serve 2 (mkReq None (Some "bytes=100-199")) 0 demo) 2 = Some st
        ∧ rangeInvariant st 1000
        ∧ (replyOf (serve 2 (mkReq None (Some "bytes=100-199")) 0 demo) 2
             ≫= header "Content-Length")
          = Some (HNum (Int 100)).
Proof.
  destruct (C4_range_offsets demo 2 0 movie None demo_selected
              ltac:(by vm_compute)) as (_ & _ & H).
  apply (H 100 199); simpl; lia.
Defined.


Lemma listened_error_evicts_witness :
  activeTorrents (step idHash demo (TorrentError 0 true))
    !! "magnet:?xt=urn:btih:c0ffee"
  = None.
Proof.
  refine (proj1 (proj2 (listened_error_evicts idHash demo 0
            (mkTorrent "magnet:?xt=urn:btih:c0ffee" true false [notes; movie])
            true demo_reachable _ _ _))).
  - by vm_compute.
  - done.
  - vm_compute. by left.
Defined.


Lemma C8_witness :
  requests (serve 2 (mkReq None None) 0 demo) !! 2%nat
  = Some (mkReq None None, Piping 0 (respond movie None).1 (respond movie None).2).
Proof.
  refine (proj1 (proj2 (C8_file_selection demo 2 0 (mkReq None None)
            (mkTorrent "magnet:?xt=urn:btih:c0ffee" true false [notes; movie]) _))
            [notes] movie [] _ _ _).
  - by vm_compute.
  - done.
  - by repeat constructor.
  - done.
Defined.

Lemma C10_witness :
  replyOf (serve 2 (mkReq None (Some "bytes=900-100")) 0 demo) 2
  = Some (Head 206
            [("Content-Range", HStr "bytes 900-100/1000");
             ("Accept-Ranges", HStr "bytes");
             ("Content-Length", HNum (Int (-799)));
             ("Content-Type", HStr "video/mp4")]).
Proof.
  destruct (C10_range_unvalidated demo 2 0 movie None demo_selected
              ltac:(by vm_compute)) as (H & _).
  destruct (H "bytes=900-100" ltac:(done)) as (_ & Hecho).
  exact (proj1 (Hecho ltac:(by vm_compute) ltac:(by vm_compute))).
Defined.

(** * More about the [/stream] handler *)

Section Coverage.

Variable infoHashOf : string → string.

Local Abbreviation clientGet := (clientGet infoHashOf).
Local Abbreviation onRequest := (onRequest infoHashOf).
Local Abbreviation step := (step infoHashOf).
Local Abbreviation run := (run infoHashOf).

(** In a run without a torrent error, at most one timer is pending for a
    content identifier. *)
Theorem one_timer_per_content (evs : list Event) (h : string)
    (p q : nat * Timer) :
  Forall errorFree evs →
  let s := run init evs in
  p ∈ timers s → q ∈ timers s → timerOf s h p → timerOf s h q → p = q.
Proof.
  intros Hevs s Hp Hq Hph Hqh.
  destruct (timersOk_run infoHashOf evs init wf_init Hevs timersOk_init)
    as [Htr Hun _]. fold s in Htr, Hun.
  destruct (Htr h p Hp Hph) as (e & He & Hk).
  destruct (Htr h q Hq Hqh) as (e' & He' & Hk').
  apply Hun; [done|done|]. congruence.
Qed.

(** The engine never holds two live sessions for one content identifier. *)
Theorem one_live_session (s : Server) (t1 t2 : nat) (tor1 tor2 : Torrent) :
  reachable infoHashOf s →
  heap s !! t1 = Some tor1 → heap s !! t2 = Some tor2 →
  destroyed tor1 = false → destroyed tor2 = false →
  infoHash tor1 = infoHash tor2 →
  t1 = t2.
Proof.
  intros Hwf%reachable_wf H1 H2 D1 D2 Hh.
  pose proof (wf_live _ Hwf _ _ H1 D1) as C1.
  pose proof (wf_live _ Hwf _ _ H2 D2) as C2.
  rewrite Hh in C1. congruence.
Qed.

(** An error of a request's read stream leaves the request, its stream and
    the engine as they are; it only refreshes the session's entry, with a
    timer at [now + TORRENT_TTL]. *)
Theorem stream_error_keeps_session (s : Server) (rid t : nat) (req : Req)
    (r : Reply) (st : ReadStream) (tor : Torrent) :
  requests s !! rid = Some (req, Piping t r st) →
  heap s !! t = Some tor →
  let s' := step s (StreamError rid) in
  requests s' = requests s
  ∧ heap s' = heap s ∧ client s' = client s
  ∧ errorListeners s' = errorListeners s
  ∧ activeTorrents s' !! infoHash tor = Some (mkEntry t (nextTimer s))
  ∧ (nextTimer s, mkTimer (now s + TORRENT_TTL) t) ∈ timers s'.
Proof.
  intros Hr Ht s'. subst s'. simpl. unfold onStreamError. rewrite Hr.
  rewrite keepTorrentAlive_requests, keepTorrentAlive_heap,
    keepTorrentAlive_client, keepTorrentAlive_listeners.
  do 4 (split; [done|]). by apply keepTorrentAlive_entry.
Qed.

(** A session without a playable file is cached all the same: the handler
    refreshes the entry before it looks for the file, so the request that
    is answered 404 leaves an entry and an armed timer behind. *)
Theorem unplayable_session_cached (s : Server) (rid t : nat) (req : Req)
    (tor : Torrent) :
  heap s !! t = Some tor →
  Forall (λ g, playable g = false) (files tor) →
  let s' := serve rid req t s in
  replyOf s' rid = Some (Json 404 "No video file found in torrent.")
  ∧ activeTorrents s' !! infoHash tor = Some (mkEntry t (nextTimer s))
  ∧ (nextTimer s, mkTimer (now s + TORRENT_TTL) t) ∈ timers s'
  ∧ heap s' = heap s ∧ client s' = client s.
Proof.
  intros Ht Hnone s'. subst s'.
  rewrite (serve_unplayable _ _ _ _ _ Ht (find_none _ _ Hnone)).
  unfold replyOf. simpl. rewrite lookup_insert_eq.
  rewrite keepTorrentAlive_heap, keepTorrentAlive_client.
  split; [done|]. destruct (keepTorrentAlive_entry t s tor Ht). done.
Qed.

(** A request for a content identifier the engine holds never creates a
    torrent: it is answered at once from the session when that is ready,
    and otherwise suspended on it without touching the cache. *)
Theorem cache_hit_never_creates (s : Server) (rid t : nat) (req : Req)
    (m : string) :
  magnet req = Some m → m ≠ "" → clientGet m s = Some t →
  let s' := onRequest rid req s in
  heap s' = heap s ∧ client s' = client s ∧ nextTorrent s' = nextTorrent s
  ∧ (isReady t s = true → resolved s' rid req t)
  ∧ (isReady t s = false →
       requests s' !! rid = Some (req, AwaitReady t)
       ∧ activeTorrents s' = activeTorrents s ∧ timers s' = timers s).
Proof.
  intros Hm Hne Hget s'. subst s'. unfold onRequest. rewrite Hm.
  destruct m as [|c m]; [done|]. simpl truthy. simpl negb. cbv iota.
  simpl default. rewrite Hget. destruct (isReady t s).
  - rewrite serve_heap, serve_client, serve_nextTorrent.
    do 3 (split; [done|]). split; [|done]. intros _. apply serve_phase.
  - do 3 (split; [done|]). split; [done|]. intros _. simpl.
    by rewrite lookup_insert_eq.
Qed.

(** A disconnect that comes after the session was destroyed puts the dead
    session back into the cache table: the refresh does not check whether
    the entry or the session is still there. *)
Theorem close_after_expiry_recaches (s : Server) (rid t : nat) (req : Req)
    (r : Reply) (st : ReadStream) (tor : Torrent) :
  reachable infoHashOf s →
  requests s !! rid = Some (req, Piping t r st) →
  heap s !! t = Some tor → destroyed tor = true →
  let s' := step s (Close rid) in
  activeTorrents s' !! infoHash tor = Some (mkEntry t (nextTimer s))
  ∧ (nextTimer s, mkTimer (now s + TORRENT_TTL) t) ∈ timers s'
  ∧ isDestroyed s' t
  ∧ ∀ m, clientGet m s' ≠ Some t.
Proof.
  intros Hr Hrid Ht Hd s'.
  pose proof (wf_step infoHashOf _ (Close rid) (reachable_wf _ _ Hr)) as Hwf'.
  fold s' in Hwf'.
  assert (isDestroyed s' t) as Hdes.
  { apply isDestroyed_step; [by apply (reachable_wf infoHashOf)|by exists tor]. }
  assert (s' = keepTorrentAlive t
                 (setPhase rid req
                    (Piping t r (if streamDestroyed st then st
                                 else mkStream (opts st) true)) s)) as Es.
  { subst s'. simpl. unfold onClose. by rewrite Hrid. }
  split; [|split; [|split; [done|]]].
  - rewrite Es. by destruct (keepTorrentAlive_entry t
      (setPhase rid req (Piping t r (if streamDestroyed st then st
                                     else mkStream (opts st) true)) s) tor Ht).
  - rewrite Es. by destruct (keepTorrentAlive_entry t
      (setPhase rid req (Piping t r (if streamDestroyed st then st
                                     else mkStream (opts st) true)) s) tor Ht).
  - intros m Hget. destruct Hdes as (tor' & Ht' & Hd').
    destruct (wf_client _ Hwf' _ _ Hget) as (tor2 & Ht2 & _ & Hd2). congruence.
Qed.

Lemma timers_destroy (l : list (nat * Timer)) (s : Server) (t : nat) :
  is_Some (heap s !! t) →
  (∃ p, p ∈ l ∧ target p.2 = t) ∨ isDestroyed s t →
  isDestroyed (foldl (λ acc p, onTimeout (target p.2) acc) s l) t.
Proof.
  revert s. induction l as [|p l IH]; intros s Hs H; simpl.
  - destruct H as [(p & Hp%elem_of_nil & _)|H]; done.
  - apply IH.
    + destruct Hs as [tor Ht].
      destruct (destroyAndForget_effect (target p.2) s) as (Hsame & _).
      destruct (sameHashes_lookup _ _ _ _ Hsame Ht) as (tor' & Ht' & _).
      by exists tor'.
    + destruct H as [(q & Hq & Hqt)|H];
        [|right; by apply isDestroyed_destroyAndForget].
      apply elem_of_cons in Hq as [->|Hq]; [|left; by exists q].
      right. unfold onTimeout, destroyAndForget. rewrite Hqt.
      destruct Hs as [tor Ht]. rewrite Ht.
      destruct (destroyed tor) eqn:Hd; [by exists tor|].
      unfold torrentDestroy, isDestroyed. rewrite Ht. simpl.
      eexists. by rewrite lookup_insert_eq.
Qed.

(** In a run without a torrent error, a session that is not refreshed for
    [TORRENT_TTL] is destroyed, its entry leaves the cache table and the
    engine no longer hands it out. *)
Theorem expiry_destroys_session (evs : list Event) (t : nat) (tor : Torrent)
    (d : Z) :
  Forall errorFree evs →
  let s := run init evs in
  heap s !! t = Some tor → TORRENT_TTL ≤ d →
  let s' := elapse d (keepTorrentAlive t s) in
  isDestroyed s' t
  ∧ activeTorrents s' !! infoHash tor = None
  ∧ ∀ m, clientGet m s' ≠ Some t.
Proof.
  intros Hevs s Ht Hd s'.
  pose proof (wf_run infoHashOf init evs wf_init) as Hwf. fold s in Hwf.
  destruct (timersOk_run infoHashOf evs init wf_init Hevs timersOk_init)
    as [Htr _ _]. fold s in Htr.
  pose proof (keepTorrentAlive_rearm s t tor Ht (Htr _)) as Harm.
  assert (isDestroyed s' t) as Hdes.
  { subst s'. unfold elapse. apply timers_destroy.
    - simpl. rewrite keepTorrentAlive_heap. by exists tor.
    - left. exists (nextTimer s, mkTimer (now s + TORRENT_TTL) t). split; [|done].
      apply list_elem_of_filter. split; [|apply Harm].
      simpl. rewrite keepTorrentAlive_now. lia. }
  split; [done|]. split.
  - apply (elapse_evicts _ _ _ _ _ _ Harm). rewrite keepTorrentAlive_now. lia.
  - intros m Hget. destruct Hdes as (tor' & Ht' & Hd').
    assert (wf s') as Hwf' by (by apply wf_elapse, wf_keepTorrentAlive).
    destruct (wf_client _ Hwf' _ _ Hget) as (tor2 & Ht2 & _ & Hd2). congruence.
Qed.

(** The wait for readiness has no timeout: a request suspended on a
    session is not answered, whatever happens and however much time
    passes, as long as the engine does not report the session ready. *)
Theorem no_timeout_while_pending (s : Server) (evs : list Event)
    (rid t : nat) (req : Req) (p : Phase) :
  requests s !! rid = Some (req, p) →
  p = AwaitAdd t ∨ p = AwaitReady t →
  Forall (λ e, ∀ fs, e ≠ Ready t fs) evs →
  requests (run s evs) !! rid = Some (req, p)
  ∧ replyOf (run s evs) rid = None.
Proof.
  intros Hr Hp Hevs.
  pose proof (run_pending infoHashOf evs s rid t req p Hr Hp Hevs) as H.
  split; [done|]. unfold replyOf. rewrite H. by destruct Hp as [-> | ->].
Qed.

(** Whatever the events, a request to [/stream] that has been answered got
    200, 206, 400 or 404: the handler never answers with a 5xx status, and
    never with 416, whatever the [Range] header. *)
Theorem stream_statuses (evs : list Event) (rid : nat) (r : Reply) :
  replyOf (run init evs) rid = Some r →
  (statusOf r = 200 ∨ statusOf r = 206 ∨ statusOf r = 400 ∨ statusOf r = 404)
  ∧ ¬ is5xx r ∧ statusOf r ≠ 416.
Proof.
  intros Hr.
  assert (okStatus r) as Hok.
  { apply (reachable_status infoHashOf (run init evs) rid); [by eexists|done]. }
  split; [exact Hok|]. unfold okStatus, is5xx in *. lia.
Qed.

Lemma respond_status_ok (f : File) (rg : option string) :
  statusOf (respond f rg).1 = 200 ∨ statusOf (respond f rg).1 = 206.
Proof. unfold respond. destruct (truthy rg); simpl; auto. Qed.

Lemma serve_status rid req t s r :
  replyOf (serve rid req t s) rid = Some r →
  statusOf r = 200 ∨ statusOf r = 206 ∨ statusOf r = 404.
Proof.
  unfold replyOf, serve. destruct (List.find _ _) as [f|].
  - pose proof (respond_status_ok f (range req)) as Hst.
    destruct (respond f (range req)) as [r' st]. simpl.
    rewrite lookup_insert_eq. intros [= <-]. simpl in Hst. tauto.
  - simpl. rewrite lookup_insert_eq. intros [= <-]. simpl. auto.
Qed.

(** Every magnet link the search handler hands out passes the parameter
    check of the stream handler: a request carrying it is never answered
    400. *)
Theorem search_magnet_accepted (s : Server) (rid : nat) (rg : option string)
    (item : Search.Item) (r : Reply) :
  replyOf (onRequest rid (mkReq (Some (Search.magnetOf item)) rg) s) rid = Some r →
  statusOf r ≠ 400.
Proof.
  unfold onRequest. simpl magnet.
  assert (∃ c m, Search.magnetOf item = String c m) as (c & m & ->).
  { unfold Search.magnetOf. by eexists _, _. }
  simpl truthy. simpl negb. cbv iota. simpl default.
  destruct (clientGet _ s) as [t|].
  - destruct (isReady t s).
    + intros [E|[E|E]]%serve_status; lia.
    + unfold replyOf. simpl. by rewrite lookup_insert_eq.
  - unfold replyOf. simpl. by rewrite lookup_insert_eq.
Qed.

(** ** Range headers the handler does not reject *)

Lemma scanDigits_showUint_then (d : uint) (c : ascii) (r : string) :
  digitOf c = None → scanDigits (showUint d ++ String c r) = d.
Proof.
  intros Hc. induction d; simpl showUint; rewrite ?append_cons; simpl;
    rewrite ?IHd; try done.
  change (scanDigits (String c r) = Nil). simpl. by rewrite Hc.
Qed.

Lemma parseInt_showUint_then (d : uint) (c : ascii) (r : string) :
  d ≠ Nil → digitOf c = None →
  parseInt (showUint d ++ String c r) = Int (Z.of_uint d).
Proof.
  intros Hd Hc. unfold parseInt.
  destruct d as [|d'|d'|d'|d'|d'|d'|d'|d'|d'|d']; [done|..];
    simpl showUint; rewrite append_cons; simpl trimStart; cbv iota beta;
    simpl scanDigits; rewrite scanDigits_showUint_then by done; reflexivity.
Qed.

Lemma split_first_piece (d : uint) (c : ascii) (tail : string) :
  c ≠ "-"%char →
  ∃ x ps, split "-" (showUint d ++ String c tail)
          = (showUint d ++ String c x)%string :: ps.
Proof.
  intros Hc. induction d as [|d [x [ps IH]]|d [x [ps IH]]|d [x [ps IH]]
    |d [x [ps IH]]|d [x [ps IH]]|d [x [ps IH]]|d [x [ps IH]]|d [x [ps IH]]
    |d [x [ps IH]]|d [x [ps IH]]];
    simpl showUint; rewrite ?append_cons; simpl split; rewrite ?IH;
    try (by eexists _, _).
  change (∃ x ps, split "-" (String c tail) = String c x :: ps). simpl.
  destruct (Ascii.eqb_spec c "-"); [done|].
  pose proof (split_nonempty "-" tail) as Hn.
  destruct (split "-" tail) as [|x ps]; [done|]. by exists x, ps.
Qed.

Lemma includes_app (c : ascii) (a b : string) :
  includes c (a ++ b) = includes c a || includes c b.
Proof.
  induction a as [|x a IH]; [done|]. rewrite append_cons. simpl.
  by rewrite IH, orb_assoc.
Qed.

Lemma includes_showUint (c : ascii) (d : uint) :
  digitOf c = None → includes c (showUint d) = false.
Proof.
  intros Hc. induction d; cbn [showUint includes]; rewrite ?IHd, ?orb_false_r;
    try done; apply Ascii.eqb_neq; intros <-; done.
Qed.

Lemma removeFirst_absent (s : string) :
  includes "b" s = false → removeFirst "bytes=" s = s.
Proof.
  induction s as [|c s IH]; [done|]. cbn [includes].
  intros [Hc Hs]%orb_false_iff. cbn [removeFirst stripPrefix].
  rewrite (Ascii.eqb_sym "b" c), Hc. by rewrite IH.
Qed.

Lemma serve_range (s : Server) (rid t : nat) (f : File) (mg : option string)
    (rg : string) (a b : Num) :
  selected s t f → rg ≠ "" →
  parsedStart rg = a → parsedEnd rg (fileLength f) = b →
  let s' := serve rid (mkReq mg (Some rg)) t s in
  streamOf s' rid = Some (mkStream (Some (a, b)) false)
  ∧ (replyOf s' rid ≫= header "Content-Range")
    = Some (HStr ("bytes " ++ toString a ++ "-" ++ toString b
                  ++ "/" ++ toString (Int (fileLength f))))
  ∧ (replyOf s' rid ≫= header "Content-Length")
    = Some (HNum (add (sub b a) (Int 1)))
  ∧ statusOf <$> replyOf s' rid = Some 206.
Proof.
  intros Hsel Hrg Ha Hb s'. subst s'. unfold streamOf, replyOf.
  rewrite (serve_selected _ _ _ _ _ Hsel). cbn [range].
  rewrite respond_range by done. rewrite Ha, Hb. done.
Qed.

(** A suffix range [bytes=-b] is not read as "the last b bytes": the start
    is [NaN], the end is [b], and the answer is 206 with
    [Content-Range: bytes NaN-b/L] and a [Content-Length] of [NaN]; for
    [b] and a file length that are safe integers. *)
Theorem suffix_range_gives_nan (s : Server) (rid t : nat) (f : File)
    (mg : option string) (b : Z) :
  selected s t f → safe (Int (fileLength f)) → 0 ≤ b → b < 2 ^ 53 →
  let s' := serve rid (mkReq mg (Some ("bytes=-" ++ toString (Int b))%string)) t s in
  streamOf s' rid = Some (mkStream (Some (NaN, Int b)) false)
  ∧ (replyOf s' rid ≫= header "Content-Range")
    = Some (HStr ("bytes NaN-" ++ toString (Int b)
                  ++ "/" ++ toString (Int (fileLength f))))
  ∧ (replyOf s' rid ≫= header "Content-Length") = Some (HNum NaN)
  ∧ statusOf <$> replyOf s' rid = Some 206.
Proof.
  intros Hsel _ Hb _.
  apply (serve_range s rid t f mg _ NaN (Int b) Hsel); [done|done|].
  unfold parsedEnd. destruct (toString_nonneg b Hb) as (d & -> & Hd & <-).
  change (removeFirst "bytes=" ("bytes=-" ++ showUint d))
    with (String "-" (showUint d)).
  change (split "-" (String "-" (showUint d)))
    with (EmptyString :: split "-" (showUint d)).
  rewrite split_showUint_end.
  change ((if truthy (Some (showUint d)) then parseInt (showUint d)
           else Int (fileLength f - 1)) = Int (Z.of_uint d)).
  rewrite showUint_truthy by done. by apply parseInt_showUint.
Qed.

(** Of a list of ranges [bytes=a-b,...] only the first is served: the
    answer is the single part [a-b], whatever follows the comma; for
    bounds and a file length that are safe integers. *)
Theorem multi_range_serves_first (s : Server) (rid t : nat) (f : File)
    (mg : option string) (a b : Z) (more : string) :
  selected s t f → safe (Int (fileLength f)) →
  0 ≤ a → a < 2 ^ 53 → 0 ≤ b → b < 2 ^ 53 →
  let rg := ("bytes=" ++ toString (Int a) ++ "-" ++ toString (Int b)
             ++ "," ++ more)%string in
  let s' := serve rid (mkReq mg (Some rg)) t s in
  streamOf s' rid = Some (mkStream (Some (Int a, Int b)) false)
  ∧ (replyOf s' rid ≫= header "Content-Range")
    = Some (HStr ("bytes " ++ toString (Int a) ++ "-" ++ toString (Int b)
                  ++ "/" ++ toString (Int (fileLength f))))
  ∧ (replyOf s' rid ≫= header "Content-Length")
    = Some (HNum (Int (b - a + 1)))
  ∧ statusOf <$> replyOf s' rid = Some 206.
Proof.
  intros Hsel _ Ha _ Hb _ rg.
  destruct (toString_nonneg a Ha) as (da & Ea & Hda & Hza).
  destruct (toString_nonneg b Hb) as (db & Eb & Hdb & Hzb).
  assert (removeFirst "bytes=" rg
          = (showUint da ++ String "-" (showUint db ++ String "," more))%string)
    as Hrm by (subst rg; by rewrite Ea, Eb).
  destruct (split_first_piece db "," more) as (x & ps & Hsp); [done|].
  assert (split "-" (removeFirst "bytes=" rg)
          = showUint da :: (showUint db ++ String "," x)%string :: ps) as Hparts.
  { by rewrite Hrm, split_showUint, Hsp. }
  apply (serve_range s rid t f mg rg (Int a) (Int b) Hsel).
  - subst rg. done.
  - unfold parsedStart. rewrite Hparts. simpl. rewrite <- Hza.
    by apply parseInt_showUint.
  - unfold parsedEnd. rewrite Hparts.
    change ((if truthy (Some (showUint db ++ String "," x)%string)
             then parseInt (showUint db ++ String "," x)
             else Int (fileLength f - 1)) = Int b).
    assert (truthy (Some (showUint db ++ String "," x)%string) = true) as ->.
    { destruct db; simpl showUint; rewrite ?append_cons; done. }
    rewrite <- Hzb. by apply parseInt_showUint_then.
Qed.

(** The unit is not required: a header [a-b] without [bytes=] is served
    like [bytes=a-b]; for bounds and a file length that are safe
    integers. *)
Theorem range_unit_optional (s : Server) (rid t : nat) (f : File)
    (mg : option string) (a b : Z) :
  selected s t f → safe (Int (fileLength f)) →
  0 ≤ a → a < 2 ^ 53 → 0 ≤ b → b < 2 ^ 53 →
  let rg := (toString (Int a) ++ "-" ++ toString (Int b))%string in
  let s' := serve rid (mkReq mg (Some rg)) t s in
  streamOf s' rid = Some (mkStream (Some (Int a, Int b)) false)
  ∧ (replyOf s' rid ≫= header "Content-Range")
    = Some (HStr ("bytes " ++ toString (Int a) ++ "-" ++ toString (Int b)
                  ++ "/" ++ toString (Int (fileLength f))))
  ∧ (replyOf s' rid ≫= header "Content-Length")
    = Some (HNum (Int (b - a + 1)))
  ∧ statusOf <$> replyOf s' rid = Some 206.
Proof.
  intros Hsel _ Ha _ Hb _ rg.
  destruct (toString_nonneg a Ha) as (da & Ea & Hda & Hza).
  destruct (toString_nonneg b Hb) as (db & Eb & Hdb & Hzb).
  assert (rg = (showUint da ++ String "-" (showUint db))%string) as Erg
    by (subst rg; by rewrite Ea, Eb).
  assert (split "-" (removeFirst "bytes=" rg) = [showUint da; showUint db])
    as Hparts.
  { rewrite removeFirst_absent.
    - by rewrite Erg, split_showUint, split_showUint_end.
    - rewrite Erg, includes_app. simpl. by rewrite !includes_showUint. }
  apply (serve_range s rid t f mg rg (Int a) (Int b) Hsel).
  - rewrite Erg. destruct da; simpl showUint; rewrite ?append_cons; done.
  - unfold parsedStart. rewrite Hparts. simpl. rewrite <- Hza.
    by apply parseInt_showUint.
  - unfold parsedEnd. rewrite Hparts.
    change ((if truthy (Some (showUint db)) then parseInt (showUint db)
             else Int (fileLength f - 1)) = Int b).
    rewrite showUint_truthy by done. rewrite <- Hzb. by apply parseInt_showUint.
Qed.

End Coverage.

(** * The [/search] handler *)

Lemma ceilDiv_le (a b q : Z) :
  0 < b → Search.ceilDiv a b ≤ q ↔ a ≤ q * b.
Proof.
  intros Hb. unfold Search.ceilDiv.
  pose proof (Z.div_mod (- a) b ltac:(lia)) as Hdm.
  pose proof (Z.mod_pos_bound (- a) b Hb) as Hm.
  split; intros H; nia.
Qed.

Lemma slice_window {A} (l : list A) (start n : Z) :
  0 ≤ start → 0 < n →
  Search.slice l start (start + n)
  = take (Z.to_nat n) (drop (Z.to_nat start) l).
Proof.
  intros Hs Hn. unfold Search.slice, Search.relative.
  destruct (Z.ltb_spec start 0); [lia|].
  destruct (Z.ltb_spec (start + n) 0); [lia|].
  destruct (Z_le_gt_dec (Z.of_nat (length l)) start) as [Hge|Hlt].
  - rewrite (drop_ge l (Z.to_nat start)) by lia. rewrite take_nil.
    replace (Z.to_nat (Z.min start (Z.of_nat (length l)))) with (length l) by lia.
    by rewrite drop_all, take_nil.
  - replace (Z.min start (Z.of_nat (length l))) with start by lia.
    destruct (Z_le_gt_dec (start + n) (Z.of_nat (length l))) as [Hfit|Hover].
    + by replace (Z.min (start + n) (Z.of_nat (length l)) - start) with n by lia.
    + rewrite !take_ge; [done| |]; rewrite length_drop; lia.
Qed.

(** For a page number from 1 and a positive page size, the page is the
    window of at most [limit] results that starts after the [page - 1]
    pages before it. *)
Theorem page_window (all : list Search.Result) (page limit : Z) :
  1 ≤ page → 0 < limit →
  let p := Search.paginate all page limit in
  Search.results p
  = take (Z.to_nat limit) (drop (Z.to_nat ((page - 1) * limit)) all)
  ∧ Z.of_nat (length (Search.results p)) ≤ limit
  ∧ Search.totalResults p = Z.of_nat (length all).
Proof.
  intros Hp Hl p. subst p. unfold Search.paginate. cbn [Search.results Search.totalResults].
  rewrite slice_window by nia. split; [done|]. split; [|done].
  rewrite length_take. lia.
Qed.

Lemma pages_prefix (all : list Search.Result) (limit : Z) (n : nat) :
  0 < limit →
  concat (List.map (λ k, Search.results (Search.paginate all (Z.of_nat k) limit))
            (seq 1 n))
  = take (n * Z.to_nat limit) all.
Proof.
  intros Hl. induction n as [|n IH]; [done|].
  rewrite seq_S, List.map_app, concat_app, IH. simpl List.map. simpl concat.
  rewrite app_nil_r.
  rewrite slice_window by nia.
  replace (Z.to_nat ((Z.of_nat (S n) - 1) * limit))
    with (n * Z.to_nat limit)%nat by nia.
  rewrite take_take_drop. f_equal. lia.
Qed.

(** For a positive page size, the pages 1 to [totalPages], one after the
    other, are all the results, each once and in order; asking for more
    pages adds nothing. *)
Theorem pages_partition (all : list Search.Result) (limit : Z) (n : nat) :
  0 < limit →
  Search.totalPages (Search.paginate all 1 limit) ≤ Z.of_nat n →
  concat (List.map (λ k, Search.results (Search.paginate all (Z.of_nat k) limit))
            (seq 1 n))
  = all.
Proof.
  intros Hl Hn. rewrite pages_prefix by done. apply take_ge.
  cbn [Search.paginate Search.totalPages] in Hn.
  apply ceilDiv_le in Hn; [|done]. nia.
Qed.

(** For a positive page size, [totalPages] is the number of the last page
    that is not empty: a page from 1 is empty exactly when its number is
    above [totalPages]. *)
Theorem page_empty_iff (all : list Search.Result) (page limit : Z) :
  1 ≤ page → 0 < limit →
  let p := Search.paginate all page limit in
  Search.results p = [] ↔ Search.totalPages p < page.
Proof.
  intros Hp Hl p. subst p. unfold Search.paginate.
  cbn [Search.results Search.totalPages]. rewrite slice_window by nia.
  assert (Search.ceilDiv (Z.of_nat (length all)) limit < page
          ↔ Z.of_nat (length all) ≤ (page - 1) * limit) as ->.
  { rewrite <- ceilDiv_le by done. lia. }
  assert (0 ≤ (page - 1) * limit) as Hnn by nia.
  split.
  - intros [H0|H%drop_nil_inv]%take_nil_inv; lia.
  - intros H. rewrite drop_ge by lia. apply take_nil.
Qed.

(** A negative page size is not rejected: with [limit < 0] the first page
    holds all results but the last [-limit], and [totalPages] is zero or
    negative. *)
Theorem negative_limit (all : list Search.Result) (limit : Z) :
  limit < 0 →
  let p := Search.paginate all 1 limit in
  Search.results p = take (Z.to_nat (Z.of_nat (length all) + limit)) all
  ∧ Search.perPage p = limit
  ∧ Search.totalPages p ≤ 0.
Proof.
  intros Hl p. subst p. unfold Search.paginate.
  cbn [Search.results Search.perPage Search.totalPages].
  split; [|split; [done|]].
  - unfold Search.slice, Search.relative.
    replace ((1 - 1) * limit) with 0 by lia.
    replace (0 + limit) with limit by lia.
    destruct (Z.ltb_spec 0 0); [lia|]. destruct (Z.ltb_spec limit 0); [|lia].
    replace (Z.to_nat (Z.min 0 (Z.of_nat (length all)))) with 0%nat by lia.
    simpl drop. f_equal. lia.
  - unfold Search.ceilDiv.
    rewrite <- (Z.opp_involutive limit) at 1. rewrite Z.div_opp_opp by lia.
    pose proof (Z.div_pos (Z.of_nat (length all)) (- limit)). lia.
Qed.

Lemma parseIntAuto_showUint (d : uint) :
  d ≠ Nil → Search.parseIntAuto (showUint d) = Int (Z.of_uint d).
Proof.
  intros Hd. unfold Search.parseIntAuto.
  destruct d as [|d'|d'|d'|d'|d'|d'|d'|d'|d'|d']; [done|..];
    simpl showUint; simpl trimStart; cbv iota beta;
    try (simpl scanDigits; rewrite scanDigits_showUint; reflexivity).
  destruct d' as [|e|e|e|e|e|e|e|e|e|e];
    simpl showUint; cbv iota beta;
    simpl scanDigits; rewrite ?scanDigits_showUint; reflexivity.
Qed.

Lemma parseIntAuto_minus (c : ascii) (r : string) :
  digitOf c ≠ None →
  Search.parseIntAuto (String "-" (String c r))
  = Search.negate (Search.parseIntAuto (String c r)).
Proof.
  intros Hc. unfold Search.parseIntAuto.
  destruct c as [[] [] [] [] [] [] [] []]; try (by destruct Hc); reflexivity.
Qed.

(** [parseInt] reads back the decimal form of every integer. *)
Lemma parseIntAuto_toString (z : Z) :
  Search.parseIntAuto (toString (Int z)) = Int z.
Proof.
  destruct z as [|p|p].
  - reflexivity.
  - destruct (toString_nonneg (Z.pos p)) as (d & -> & Hd & <-); [lia|].
    by apply parseIntAuto_showUint.
  - change (toString (Int (Z.neg p))) with (String "-" (showUint (Pos.to_uint p))).
    pose proof (DecimalPos.Unsigned.to_uint_nonnil p) as Hn.
    pose proof (parseIntAuto_showUint (Pos.to_uint p) Hn) as H.
    assert (Z.of_uint (Pos.to_uint p) = Z.pos p) as Hz.
    { unfold Z.of_uint. by rewrite DecimalPos.Unsigned.of_to. }
    rewrite Hz in H.
    destruct (Pos.to_uint p) as [|d|d|d|d|d|d|d|d|d|d]; [done|..];
      simpl showUint in *; rewrite parseIntAuto_minus by done;
      by rewrite H.
Qed.

(** A request without [query] is answered 400 whatever its other
    parameters and whatever the upstream service would say; with a query,
    a failing upstream gives 500; and the handler fails in no other way. *)
Theorem search_errors (q : Search.Query) (fetch : string → option (list Search.Item)) :
  let url := Search.searchUrl (default "" (Search.query q)) in
  (truthy (Search.query q) = false →
     Search.search q fetch = Search.Failure 400 "Query is required")
  ∧ (truthy (Search.query q) = true → fetch url = None →
       Search.search q fetch = Search.Failure 500 "Error fetching torrents")
  ∧ (∀ st e, Search.search q fetch = Search.Failure st e →
       (st = 400 ∧ truthy (Search.query q) = false)
       ∨ (st = 500 ∧ truthy (Search.query q) = true ∧ fetch url = None)).
Proof.
  intros url. subst url. unfold Search.search.
  destruct (truthy (Search.query q)); simpl.
  - split; [done|]. split; [by intros _ ->|].
    intros st e. destruct (fetch _); [done|]. intros [= <- <-]. by right.
  - split; [done|]. split; [done|]. intros st e [= <- <-]. by left.
Qed.

(** The page number and the page size of an answer are never zero; a
    parameter that is absent or [0] is replaced by its default, 1 for
    [page] and 10 for [limit]. *)
Theorem search_paging_defaults (q : Search.Query)
    (fetch : string → option (list Search.Item)) (p : Search.Page) :
  Search.search q fetch = Search.Success p →
  Search.currentPage p ≠ 0 ∧ Search.perPage p ≠ 0
  ∧ (Search.page q = None ∨ Search.page q = Some "0" → Search.currentPage p = 1)
  ∧ (Search.limit q = None ∨ Search.limit q = Some "0" → Search.perPage p = 10).
Proof.
  unfold Search.search. destruct (negb _); [done|].
  destruct (fetch _) as [data|]; [|done]. intros [= <-].
  cbn [Search.paginate Search.currentPage Search.perPage].
  assert (∀ n d, d ≠ 0 → Search.orElse n d ≠ 0) as Hnz.
  { intros [|z] d Hd; simpl; [done|]. by destruct (Z.eqb_spec z 0). }
  split; [by apply Hnz|]. split; [by apply Hnz|].
  split; intros [-> | ->]; reflexivity.
Qed.

(** Page and limit given as decimal integers other than zero (and within
    the range where JavaScript numbers are exact) are taken as they are,
    negative ones too. *)
Theorem search_numeric_params (q : Search.Query)
    (fetch : string → option (list Search.Item)) (data : list Search.Item)
    (a b : Z) :
  truthy (Search.query q) = true →
  fetch (Search.searchUrl (default "" (Search.query q))) = Some data →
  Search.page q = Some (toString (Int a)) →
  Search.limit q = Some (toString (Int b)) →
  a ≠ 0 → b ≠ 0 → Z.abs a < 2 ^ 53 → Z.abs b < 2 ^ 53 →
  Search.search q fetch
  = Search.Success (Search.paginate (Search.allTorrents data) a b).
Proof.
  intros Hq Hf Hp Hl Ha Hb _ _. unfold Search.search, Search.parseParam.
  rewrite Hq, Hf, Hp, Hl.
  change (default "undefined" (Some ?x)) with x.
  rewrite !parseIntAuto_toString. cbn [negb Search.orElse].
  by destruct (Z.eqb_spec a 0), (Z.eqb_spec b 0).
Qed.

(** Every result of an answer is built from an element of the upstream
    answer that has a name, with that element's fields and the magnet
    link made of its hash and name; [totalResults] counts the elements
    that have a name. *)
Theorem results_from_upstream (q : Search.Query)
    (fetch : string → option (list Search.Item)) (p : Search.Page) :
  Search.search q fetch = Search.Success p →
  ∃ data,
    fetch (Search.searchUrl (default "" (Search.query q))) = Some data
    ∧ Search.totalResults p
      = Z.of_nat (length (List.filter (λ i, truthy (Search.itemName i)) data))
    ∧ ∀ r, r ∈ Search.results p →
        ∃ item, item ∈ data
                ∧ truthy (Search.itemName item) = true
                ∧ Search.name r = Search.itemName item
                ∧ Search.size r = Search.itemSize item
                ∧ Search.seeders r = Search.itemSeeders item
                ∧ Search.leechers r = Search.itemLeechers item
                ∧ Search.magnet r = Search.magnetOf item.
Proof.
  unfold Search.search. destruct (negb _); [done|].
  destruct (fetch _) as [data|]; [|done]. intros [= <-]. exists data.
  split; [done|]. cbn [Search.paginate Search.totalResults Search.results].
  split; [unfold Search.allTorrents; by rewrite length_map|].
  intros r Hr. unfold Search.slice in Hr.
  apply subseteq_take, subseteq_drop in Hr.
  apply list_elem_of_In, in_map_iff in Hr as (item & <- & Hin).
  apply filter_In in Hin as [Hin Hname].
  exists item. by rewrite list_elem_of_In.
Qed.

Lemma hexDigit_unreserved (n : nat) : Search.unreserved (Search.hexDigit n) = true.
Proof. do 16 (destruct n as [|n]; [done|]). done. Qed.

(** [encodeURIComponent] yields only unreserved characters and [%], so the
    query it is applied to cannot add a parameter to the upstream address,
    nor the name to the magnet link. *)
Theorem encode_only_safe_chars (s : string) :
  (∀ c, includes c (Search.encodeURIComponent s) = true →
        Search.unreserved c = true ∨ c = "%"%char)
  ∧ includes "&" (Search.encodeURIComponent s) = false
  ∧ includes "=" (Search.encodeURIComponent s) = false
  ∧ includes "?" (Search.encodeURIComponent s) = false
  ∧ includes "#" (Search.encodeURIComponent s) = false
  ∧ includes "/" (Search.encodeURIComponent s) = false
  ∧ includes " " (Search.encodeURIComponent s) = false.
Proof.
  assert (∀ c, includes c (Search.encodeURIComponent s) = true →
               Search.unreserved c = true ∨ c = "%"%char) as Hsafe.
  { intros c. induction s as [|x s IH]; [done|]. cbn [Search.encodeURIComponent].
    assert (∀ n rest, includes c (Search.percent n rest) = true →
                      (Search.unreserved c = true ∨ c = "%"%char)
                      ∨ includes c rest = true) as Hpct.
    { intros n rest. unfold Search.percent. cbn [includes].
      rewrite !orb_true_iff.
      intros [E|[E|[E|E]]]; [| | |by right]; apply Ascii.eqb_eq in E as <-;
        left; auto using hexDigit_unreserved. }
    destruct (Search.unreserved x) eqn:Hx.
    - cbn [includes]. rewrite orb_true_iff.
      intros [E|E]; [apply Ascii.eqb_eq in E as <-; by left|by apply IH].
    - destruct (_ <? _)%nat.
      + intros [H|H]%Hpct; [done|by apply IH].
      + intros [H|[H|H]%Hpct]%Hpct; [done|done|by apply IH]. }
  split; [done|].
  repeat split;
    match goal with
    | |- includes ?c _ = false =>
        destruct (includes c (Search.encodeURIComponent s)) eqn:E; [|done];
        by destruct (Hsafe c E)
    end.
Qed.

(** * Instances of the statements above *)

Lemma sliding_ttl_error_free_witness :
  activeTorrents
    (elapse 600000 (keepTorrentAlive 0 (elapse 1000 (keepTorrentAlive 0 demo))))
    !! "magnet:?xt=urn:btih:c0ffee"
  = None.
Proof.
  refine (proj2 (proj2
            (sliding_ttl_error_free idHash
               [Incoming 1 (mkReq (Some "magnet:?xt=urn:btih:c0ffee") None);
                Ready 0 [notes; movie]]
               0 (mkTorrent "magnet:?xt=urn:btih:c0ffee" true false [notes; movie])
               1000 600000 _ _ _ _ _)) _).
  - repeat (constructor; [intros ? ?; discriminate|]). constructor.
  - by vm_compute.
  - lia.
  - unfold TORRENT_TTL. lia.
  - lia.
  - unfold TORRENT_TTL. lia.
Defined.

Lemma stream_statuses_witness : statusOf (respond movie None).1 ≠ 416.
Proof.
  refine (proj2 (proj2
            (stream_statuses idHash
               [Incoming 1 (mkReq (Some "magnet:?xt=urn:btih:c0ffee") None);
                Ready 0 [notes; movie]]
               1 (respond movie None).1 _))).
  by vm_compute.
Defined.

Lemma one_timer_per_content_witness :
  let s := step idHash demo (Close 1) in
  let p := (1%nat, mkTimer 600000 0) in
  p ∈ timers s ∧ timerOf s "magnet:?xt=urn:btih:c0ffee" p ∧ p = p.
Proof.
  intros s p.
  assert (p ∈ timers s) as Hp by (vm_compute; by left).
  assert (timerOf s "magnet:?xt=urn:btih:c0ffee" p) as Ht.
  { exists (mkTorrent "magnet:?xt=urn:btih:c0ffee" true false [notes; movie]).
    by vm_compute. }
  split; [exact Hp|]. split; [exact Ht|].
  refine (one_timer_per_content idHash
            [Incoming 1 (mkReq (Some "magnet:?xt=urn:btih:c0ffee") None);
             Ready 0 [notes; movie]; Close 1]
            "magnet:?xt=urn:btih:c0ffee" p p _ Hp Hp Ht Ht).
  repeat (constructor; [intros ? ?; discriminate|]). constructor.
Defined.

Lemma one_live_session_witness :
  heap demo !! 0%nat
  = Some (mkTorrent "magnet:?xt=urn:btih:c0ffee" true false [notes; movie])
  ∧ 0%nat = 0%nat.
Proof.
  assert (heap demo !! 0%nat
          = Some (mkTorrent "magnet:?xt=urn:btih:c0ffee" true false [notes; movie]))
    as H by (by vm_compute).
  split; [exact H|].
  exact (one_live_session idHash demo 0 0 _ _ demo_reachable H H
           eq_refl eq_refl eq_refl).
Defined.

Lemma stream_error_keeps_session_witness :
  activeTorrents (step idHash demo (StreamError 1)) !! "magnet:?xt=urn:btih:c0ffee"
  = Some (mkEntry 0 1)
  ∧ (1%nat, mkTimer (0 + TORRENT_TTL) 0) ∈ timers (step idHash demo (StreamError 1)).
Proof.
  refine (proj2 (proj2 (proj2 (proj2
            (stream_error_keeps_session idHash demo 1 0
               (mkReq (Some "magnet:?xt=urn:btih:c0ffee") None)
               (respond movie None).1 (respond movie None).2
               (mkTorrent "magnet:?xt=urn:btih:c0ffee" true false [notes; movie])
               _ _))))).
  - by vm_compute.
  - by vm_compute.
Defined.

Lemma unplayable_session_cached_witness :
  let req := mkReq (Some "magnet:?xt=urn:btih:c0ffee") None in
  let s := run idHash init [Incoming 1 req; Ready 0 [notes]] in
  replyOf (serve 2 req 0 s) 2 = Some (Json 404 "No video file found in torrent.")
  ∧ activeTorrents (serve 2 req 0 s) !! "magnet:?xt=urn:btih:c0ffee"
    = Some (mkEntry 0 1).
Proof.
  intros req s.
  destruct (unplayable_session_cached s 2 0 req
              (mkTorrent "magnet:?xt=urn:btih:c0ffee" true false [notes]))
    as (H1 & H2 & _).
  - by vm_compute.
  - by repeat constructor.
  - by split.
Defined.

Lemma cache_hit_never_creates_witness :
  let req := mkReq (Some "magnet:?xt=urn:btih:c0ffee") None in
  nextTorrent (onRequest idHash 2 req demo) = nextTorrent demo
  ∧ resolved (onRequest idHash 2 req demo) 2 req 0.
Proof.
  intros req.
  destruct (cache_hit_never_creates idHash demo 2 0 req
              "magnet:?xt=urn:btih:c0ffee" eq_refl ltac:(done) ltac:(by vm_compute))
    as (_ & _ & Hn & Hr & _).
  split; [exact Hn|]. apply Hr. by vm_compute.
Defined.

Lemma close_after_expiry_recaches_witness :
  let req := mkReq (Some "magnet:?xt=urn:btih:c0ffee") None in
  let s := run idHash init [Incoming 1 req; Ready 0 [movie]; Elapse 600000] in
  isDestroyed s 0
  ∧ activeTorrents s !! "magnet:?xt=urn:btih:c0ffee" = None
  ∧ activeTorrents (step idHash s (Close 1)) !! "magnet:?xt=urn:btih:c0ffee"
    = Some (mkEntry 0 1)
  ∧ clientGet idHash "magnet:?xt=urn:btih:c0ffee" (step idHash s (Close 1)) ≠ Some 0%nat.
Proof.
  intros req s.
  assert (heap s !! 0%nat
          = Some (mkTorrent "magnet:?xt=urn:btih:c0ffee" true true [movie]))
    as Hheap by (by vm_compute).
  split; [by eexists|]. split; [by vm_compute|].
  destruct (close_after_expiry_recaches idHash s 1 0 req
              (respond movie None).1 (respond movie None).2 _
              (ex_intro _ _ eq_refl) ltac:(by vm_compute) Hheap eq_refl)
    as (He & _ & _ & Hget).
  split; [exact He|apply Hget].
Defined.

Lemma expiry_destroys_session_witness :
  isDestroyed (elapse 600000 (keepTorrentAlive 0 demo)) 0
  ∧ activeTorrents (elapse 600000 (keepTorrentAlive 0 demo))
      !! "magnet:?xt=urn:btih:c0ffee" = None.
Proof.
  destruct (expiry_destroys_session idHash
              [Incoming 1 (mkReq (Some "magnet:?xt=urn:btih:c0ffee") None);
               Ready 0 [notes; movie]]
              0 (mkTorrent "magnet:?xt=urn:btih:c0ffee" true false [notes; movie])
              600000) as (H1 & H2 & _).
  - repeat (constructor; [intros ? ?; discriminate|]). constructor.
  - by vm_compute.
  - unfold TORRENT_TTL. lia.
  - by split.
Defined.

Lemma no_timeout_while_pending_witness :
  let req := mkReq (Some "magnet:?xt=urn:btih:c0ffee") None in
  replyOf (run idHash init [Incoming 1 req; Elapse 3600000; Incoming 2 req]) 1
  = None.
Proof.
  intros req.
  refine (proj2 (no_timeout_while_pending idHash
                   (run idHash init [Incoming 1 req])
                   [Elapse 3600000; Incoming 2 req] 1 0 req (AwaitAdd 0) _ _ _)).
  - by vm_compute.
  - by left.
  - repeat (constructor; [intros ?; discriminate|]). constructor.
Defined.

Lemma search_magnet_accepted_witness :
  let item := Search.mkItem (Some "Big Buck Bunny") (Some "276445467")
                (Some "12") (Some "3") (Some "c0ffee") in
  let req := mkReq (Some (Search.magnetOf item)) None in
  let s := run idHash init [Incoming 1 req; Ready 0 [movie]] in
  replyOf (onRequest idHash 2 req s) 2 = Some (respond movie None).1
  ∧ statusOf (respond movie None).1 ≠ 400.
Proof.
  intros item req s.
  assert (replyOf (onRequest idHash 2 req s) 2 = Some (respond movie None).1)
    as H by (by vm_compute).
  split; [exact H|].
  exact (search_magnet_accepted idHash s 2 None item _ H).
Defined.

Lemma suffix_range_gives_nan_witness :
  streamOf (serve 2 (mkReq None (Some "bytes=-500")) 0 demo) 2
  = Some (mkStream (Some (NaN, Int 500)) false)
  ∧ (replyOf (serve 2 (mkReq None (Some "bytes=-500")) 0 demo) 2
       ≫= header "Content-Range")
    = Some (HStr "bytes NaN-500/1000").
Proof.
  destruct (suffix_range_gives_nan demo 2 0 movie None 500 demo_selected
              ltac:(by vm_compute) ltac:(lia) ltac:(lia)) as (H1 & H2 & _).
  split; [exact H1|exact H2].
Defined.

Lemma multi_range_serves_first_witness :
  streamOf (serve 2 (mkReq None (Some "bytes=0-99,200-299")) 0 demo) 2
  = Some (mkStream (Some (Int 0, Int 99)) false)
  ∧ (replyOf (serve 2 (mkReq None (Some "bytes=0-99,200-299")) 0 demo) 2
       ≫= header "Content-Length")
    = Some (HNum (Int 100)).
Proof.
  destruct (multi_range_serves_first demo 2 0 movie None 0 99 "200-299"
              demo_selected ltac:(by vm_compute)
              ltac:(lia) ltac:(lia) ltac:(lia) ltac:(lia)) as (H1 & _ & H3 & _).
  split; [exact H1|exact H3].
Defined.

Lemma range_unit_optional_witness :
  streamOf (serve 2 (mkReq None (Some "100-199")) 0 demo) 2
  = Some (mkStream (Some (Int 100, Int 199)) false)
  ∧ (replyOf (serve 2 (mkReq None (Some "100-199")) 0 demo) 2
       ≫= header "Content-Range")
    = Some (HStr "bytes 100-199/1000").
Proof.
  destruct (range_unit_optional demo 2 0 movie None 100 199
              demo_selected ltac:(by vm_compute)
              ltac:(lia) ltac:(lia) ltac:(lia) ltac:(lia)) as (H1 & H2 & _).
  split; [exact H1|exact H2].
Defined.

Lemma page_window_witness :
  let r := λ n, Search.mkResult (Some n) None None None "" in
  Search.results (Search.paginate [r "a"; r "b"; r "c"; r "d"; r "e"] 2 2)
  = [r "c"; r "d"].
Proof.
  intros r.
  exact (proj1 (page_window [r "a"; r "b"; r "c"; r "d"; r "e"] 2 2
                  ltac:(lia) ltac:(lia))).
Defined.

Lemma pages_partition_witness :
  let r := λ n, Search.mkResult (Some n) None None None "" in
  let all := [r "a"; r "b"; r "c"; r "d"; r "e"] in
  (Search.results (Search.paginate all 1 2)
   ++ Search.results (Search.paginate all 2 2)
   ++ Search.results (Search.paginate all 3 2) ++ [])%list
  = all.
Proof.
  intros r all.
  refine (pages_partition all 2 3 _ _); [lia|].
  vm_compute. discriminate.
Defined.

Lemma page_empty_iff_witness :
  let r := λ n, Search.mkResult (Some n) None None None "" in
  let all := [r "a"; r "b"; r "c"; r "d"; r "e"] in
  Search.totalPages (Search.paginate all 4 2) = 3
  ∧ Search.results (Search.paginate all 4 2) = [].
Proof.
  intros r all. split; [reflexivity|].
  refine (proj2 (page_empty_iff all 4 2 _ _) _); [lia|lia|].
  by vm_compute.
Defined.

Lemma negative_limit_witness :
  let r := λ n, Search.mkResult (Some n) None None None "" in
  let all := [r "a"; r "b"; r "c"; r "d"; r "e"] in
  Search.results (Search.paginate all 1 (-2)) = [r "a"; r "b"; r "c"].
Proof.
  intros r all.
  exact (proj1 (negative_limit all (-2) ltac:(lia))).
Defined.

Lemma search_errors_witness :
  Search.search (Search.mkQuery None (Some "2") (Some "5")) (λ _, Some [])
  = Search.Failure 400 "Query is required"
  ∧ Search.search (Search.mkQuery (Some "ubuntu") None None) (λ _, None)
    = Search.Failure 500 "Error fetching torrents".
Proof.
  split.
  - exact (proj1 (search_errors (Search.mkQuery None (Some "2") (Some "5"))
                    (λ _, Some [])) eq_refl).
  - exact (proj1 (proj2 (search_errors (Search.mkQuery (Some "ubuntu") None None)
                           (λ _, None))) eq_refl eq_refl).
Defined.

Lemma search_paging_defaults_witness :
  let q := Search.mkQuery (Some "ubuntu") None (Some "0") in
  Search.search q (λ _, Some []) = Search.Success (Search.paginate [] 1 10)
  ∧ Search.currentPage (Search.paginate [] 1 10) = 1
  ∧ Search.perPage (Search.paginate [] 1 10) = 10.
Proof.
  intros q.
  assert (Search.search q (λ _, Some []) = Search.Success (Search.paginate [] 1 10))
    as H by reflexivity.
  split; [exact H|].
  destruct (search_paging_defaults q (λ _, Some []) _ H) as (_ & _ & Hp & Hl).
  split; [apply Hp; by left|apply Hl; by right].
Defined.

Lemma search_numeric_params_witness :
  let item := Search.mkItem (Some "Big Buck Bunny") (Some "276445467")
                (Some "12") (Some "3") (Some "c0ffee") in
  let q := Search.mkQuery (Some "bunny") (Some "2") (Some "3") in
  Search.search q (λ _, Some [item; item; item; item])
  = Search.Success (Search.paginate (Search.allTorrents [item; item; item; item]) 2 3).
Proof.
  intros item q.
  refine (search_numeric_params q _ [item; item; item; item] 2 3
            eq_refl eq_refl eq_refl eq_refl _ _ _ _); lia.
Defined.

Lemma results_from_upstream_witness :
  let item := Search.mkItem (Some "Big Buck Bunny") (Some "276445467")
                (Some "12") (Some "3") (Some "c0ffee") in
  let nameless := Search.mkItem None None None None (Some "dead") in
  let q := Search.mkQuery (Some "bunny") None None in
  ∃ p, Search.search q (λ _, Some [nameless; item]) = Search.Success p
       ∧ Search.totalResults p = 1
       ∧ ∀ r, r ∈ Search.results p → Search.magnet r = Search.magnetOf item.
Proof.
  intros item nameless q.
  exists (Search.paginate (Search.allTorrents [nameless; item]) 1 10).
  assert (Search.search q (λ _, Some [nameless; item])
          = Search.Success (Search.paginate (Search.allTorrents [nameless; item]) 1 10))
    as H by reflexivity.
  split; [exact H|].
  destruct (results_from_upstream q _ _ H) as (data & [= <-] & Htot & Hres).
  split; [exact Htot|].
  intros r Hr. destruct (Hres r Hr) as (i & Hi & Hname & _ & _ & _ & _ & ->).
  apply list_elem_of_In in Hi. destruct Hi as [<-|[<-|[]]]; [discriminate|done].
Defined.

Lemma encode_only_safe_chars_witness :
  includes "&" (Search.encodeURIComponent "q&cat=207") = false
  ∧ (Search.unreserved "%" = true ∨ "%"%char = "%"%char).
Proof.
  split.
  - exact (proj1 (proj2 (encode_only_safe_chars "q&cat=207"))).
  - exact (proj1 (encode_only_safe_chars "q&cat=207") "%"%char eq_refl).
Defined.
